(** * The wallet keystore of neuron-wallet

    A shallow embedding of [packages/neuron-wallet/src/models/keys/keystore.ts]:
    the class [Keystore] with [fromJson], [create], [decrypt], [checkPassword],
    [derivedKey] and [mac].

    The class calls into Node's [crypto] module, the [sha3] and [uuid] packages
    and [JSON.parse].  They are modelled here by their published algorithms
    (FIPS 180-4, RFC 2104, RFC 8018, RFC 7914, FIPS 197, SP 800-38A, the Keccak
    submission, RFC 4122, ECMA-404) and checked against the standards' test
    vectors in the second half of the file. *)

From Stdlib Require Import ZArith String Ascii Bool Lia List.
From Stdlib.Strings Require Import Byte.
Import ListNotations.

Set Warnings "-register-all".

(** ** Byte-level helpers *)

Module Bytes.
Local Open Scope Z_scope.

Definition toZ (b : byte) : Z := Z.of_N (Byte.to_N b).

Definition ofZ (z : Z) : byte :=
  match Byte.of_N (Z.to_N (z mod 256)) with
  | Some b => b
  | None => x00
  end.

(** Words wrap around by masking. *)
Definition mask32 : Z := 4294967295.
Definition mask64 : Z := 18446744073709551615.

(** Big-endian and little-endian readings of a list of octets. *)
Definition be (bs : list Z) : Z := fold_left (fun acc b => acc * 256 + b) bs 0.
Definition le (bs : list Z) : Z := fold_right (fun b acc => b + 256 * acc) 0 bs.

Fixpoint to_le (n : nat) (x : Z) : list Z :=
  match n with
  | O => []
  | S n' => Z.land x 255 :: to_le n' (Z.shiftr x 8)
  end.

Definition to_be (n : nat) (x : Z) : list Z := rev (to_le n x).

Fixpoint chunks {A} (fuel n : nat) (l : list A) : list (list A) :=
  match fuel with
  | O => []
  | S fuel' =>
      match l with
      | [] => []
      | _ => firstn n l :: chunks fuel' n (skipn n l)
      end
  end.

(** [l] cut into pieces of [n] elements (the last one may be shorter). *)
Definition chunk {A} (n : nat) (l : list A) : list (list A) := chunks (length l) n l.

Definition xors (a b : list Z) : list Z :=
  map (fun p => Z.lxor (fst p) (snd p)) (combine a b).

Definition xor_bits (a b : bool * (bool * (bool * (bool * (bool * (bool * (bool * bool)))))))
  : bool * (bool * (bool * (bool * (bool * (bool * (bool * bool)))))) :=
  let '(a0, (a1, (a2, (a3, (a4, (a5, (a6, a7))))))) := a in
  let '(b0, (b1, (b2, (b3, (b4, (b5, (b6, b7))))))) := b in
  (xorb a0 b0, (xorb a1 b1, (xorb a2 b2, (xorb a3 b3,
   (xorb a4 b4, (xorb a5 b5, (xorb a6 b6, xorb a7 b7))))))).

Definition xor_byte (a b : byte) : byte :=
  Byte.of_bits (xor_bits (Byte.to_bits a) (Byte.to_bits b)).

(** [data] xor-ed with a key stream; a stream that runs out leaves the rest as it is. *)
Fixpoint xor_stream (data stream : list byte) : list byte :=
  match data, stream with
  | d :: ds, k :: ks => xor_byte d k :: xor_stream ds ks
  | _, _ => data
  end.

End Bytes.

(** ** Node's [Buffer] *)

Module Buffer.
Local Open Scope Z_scope.

Definition t := list byte.

Definition hexdigit (n : Z) : ascii :=
  ascii_of_nat (Z.to_nat (if n <? 10 then 48 + n else 87 + n)).

(** [buf.toString('hex')]: two lower-case digits per octet. *)
Fixpoint toString_hex (buf : t) : string :=
  match buf with
  | [] => EmptyString
  | x :: rest =>
      String (hexdigit (Bytes.toZ x / 16))
        (String (hexdigit (Bytes.toZ x mod 16)) (toString_hex rest))
  end.

Definition hexval (c : ascii) : option Z :=
  let n := Z.of_nat (nat_of_ascii c) in
  if (48 <=? n) && (n <=? 57) then Some (n - 48)
  else if (97 <=? n) && (n <=? 102) then Some (n - 87)
  else if (65 <=? n) && (n <=? 70) then Some (n - 55)
  else None.

(** [Buffer.from(s, 'hex')]: pairs of digits of either case are decoded from the
    left; decoding stops at the first pair that is not two hex digits, and a
    last single character is dropped. *)
Fixpoint from_hex (s : string) : t :=
  match s with
  | String a (String b rest) =>
      match hexval a, hexval b with
      | Some h, Some l => Bytes.ofZ (16 * h + l) :: from_hex rest
      | _, _ => []
      end
  | _ => []
  end.

Definition lower_hex (c : ascii) : bool :=
  let n := Z.of_nat (nat_of_ascii c) in
  ((48 <=? n) && (n <=? 57)) || ((97 <=? n) && (n <=? 102)).

(** [s] is the hex encoding of some octets: an even number of lower-case hex
    digits, which is what [toString('hex')] writes. *)
Fixpoint is_hex (s : string) : bool :=
  match s with
  | EmptyString => true
  | String a (String b rest) => lower_hex a && lower_hex b && is_hex rest
  | String _ EmptyString => false
  end.

(** [buf.slice(start, end)] for indices that are not negative. *)
Definition slice (buf : t) (start stop : nat) : t := firstn (stop - start) (skipn start buf).

Definition of_string (s : string) : t := list_byte_of_string s.

(** The two directions between strings and the octet lists of the primitives,
    for writing test vectors. *)
Definition ascii_octets (s : string) : list Z := map Bytes.toZ (of_string s).

Definition hex (l : list Z) : string := toString_hex (map Bytes.ofZ l).

End Buffer.

(** ** SHA-256 (FIPS 180-4) *)

Module Sha256.
Local Open Scope Z_scope.
Import Bytes.

Definition add32 (a b : Z) : Z := Z.land (a + b) mask32.
Definition rotr (n x : Z) : Z := Z.lor (Z.shiftr x n) (Z.land (Z.shiftl x (32 - n)) mask32).
Definition not32 (x : Z) : Z := Z.lxor x mask32.

Definition Ch x y z := Z.lxor (Z.land x y) (Z.land (not32 x) z).
Definition Maj x y z := Z.lxor (Z.lxor (Z.land x y) (Z.land x z)) (Z.land y z).
Definition Sigma0 x := Z.lxor (Z.lxor (rotr 2 x) (rotr 13 x)) (rotr 22 x).
Definition Sigma1 x := Z.lxor (Z.lxor (rotr 6 x) (rotr 11 x)) (rotr 25 x).
Definition sigma0 x := Z.lxor (Z.lxor (rotr 7 x) (rotr 18 x)) (Z.shiftr x 3).
Definition sigma1 x := Z.lxor (Z.lxor (rotr 17 x) (rotr 19 x)) (Z.shiftr x 10).

Definition is_prime (n : Z) : bool :=
  forallb (fun d => negb (n mod Z.of_nat d =? 0)) (seq 2 (Z.to_nat n - 2)).

(** The first sixty-four primes. *)
Definition primes64 : list Z :=
  Eval vm_compute in filter is_prime (map Z.of_nat (seq 2 310)).

(** Floor of the cube root, found bit by bit from the top. *)
Fixpoint icbrt (bits : nat) (x r : Z) : Z :=
  match bits with
  | O => r
  | S b =>
      let c := r + 2 ^ Z.of_nat b in
      icbrt b x (if c * c * c <=? x then c else r)
  end.

(** The round constants: the first 32 bits of the fractional parts of the cube
    roots of the primes; the initial hash value: the same of the square roots
    of the first eight. *)
Definition K : list Z :=
  Eval vm_compute in map (fun q => icbrt 40 (q * 2 ^ 96) 0 mod 2 ^ 32) primes64.

Definition H0 : list Z :=
  Eval vm_compute in map (fun q => Z.sqrt (q * 2 ^ 64) mod 2 ^ 32) (firstn 8 primes64).

Definition pad (msg : list Z) : list Z :=
  let l := Z.of_nat (length msg) in
  let k := Z.to_nat ((55 - l) mod 64) in
  msg ++ 128 :: repeat 0 k ++ to_be 8 (8 * l).

(** The message schedule, newest word first. *)
Fixpoint schedule (n : nat) (w : list Z) : list Z :=
  match n with
  | O => w
  | S n' =>
      let w2 := nth 1 w 0 in
      let w7 := nth 6 w 0 in
      let w15 := nth 14 w 0 in
      let w16 := nth 15 w 0 in
      schedule n' (add32 (add32 (sigma1 w2) w7) (add32 (sigma0 w15) w16) :: w)
  end.

Definition round (s : list Z) (kw : Z * Z) : list Z :=
  match s with
  | [a; b; c; d; e; f; g; h] =>
      let t1 := add32 (add32 (add32 h (Sigma1 e)) (add32 (Ch e f g) (fst kw))) (snd kw) in
      let t2 := add32 (Sigma0 a) (Maj a b c) in
      [add32 t1 t2; a; b; c; add32 d t1; e; f; g]
  | _ => s
  end.

Definition compress (h : list Z) (block : list Z) : list Z :=
  let w0 := rev (map be (chunk 4 block)) in
  let w := rev (schedule 48 w0) in
  let s := fold_left round (combine K w) h in
  map (fun q => add32 (fst q) (snd q)) (combine h s).

Definition state (msg : list Z) : list Z := fold_left compress (chunk 64 (pad msg)) H0.

Definition digest (msg : list Z) : list Z := flat_map (to_be 4) (state msg).

End Sha256.

(** ** HMAC-SHA-256 (RFC 2104) and PBKDF2 (RFC 8018) *)

Module Hmac.
Local Open Scope Z_scope.

(** The key as the 64-octet block the two passes start from: a key longer than
    a block is hashed first, and the result is filled up with zeros. *)
Definition key_block (key : list Z) : list Z :=
  let k0 := if (64 <? length key)%nat then Sha256.digest key else key in
  k0 ++ repeat 0 (64 - length k0).

Definition hmac_block (kb msg : list Z) : list Z :=
  Sha256.digest (map (Z.lxor 92) kb ++ Sha256.digest (map (Z.lxor 54) kb ++ msg)).

Definition hmac (key msg : list Z) : list Z := hmac_block (key_block key) msg.

End Hmac.

Module Pbkdf2.
Local Open Scope Z_scope.
Import Bytes.

Fixpoint F_iter (kb : list Z) (c : nat) (u acc : list Z) : list Z :=
  match c with
  | O => acc
  | S c' => let u' := Hmac.hmac_block kb u in F_iter kb c' u' (xors acc u')
  end.

Definition F (kb salt : list Z) (c : nat) (i : Z) : list Z :=
  let u1 := Hmac.hmac_block kb (salt ++ to_be 4 i) in
  F_iter kb (c - 1) u1 u1.

(** PBKDF2 with the password already turned into its HMAC key block. *)
Definition derive (kb salt : list Z) (c dkLen : nat) : list Z :=
  firstn dkLen (flat_map (fun i => F kb salt c (Z.of_nat i)) (seq 1 ((dkLen + 31) / 32))).

Definition pbkdf2 (password salt : list Z) (c dkLen : nat) : list Z :=
  derive (Hmac.key_block password) salt c dkLen.

End Pbkdf2.

(** ** scrypt (RFC 7914) *)

Module Scrypt.
Local Open Scope Z_scope.
Import Bytes.

Definition rotl (n x : Z) : Z := Z.lor (Z.land (Z.shiftl x n) mask32) (Z.shiftr x (32 - n)).

Fixpoint upd (i : nat) (v : Z) (l : list Z) : list Z :=
  match l, i with
  | [], _ => []
  | _ :: t, O => v :: t
  | h :: t, S i' => h :: upd i' v t
  end.

(** [x[d] ^= R(x[a] + x[b], n)] *)
Definition step (a b d : nat) (n : Z) (x : list Z) : list Z :=
  upd d (Z.lxor (nth d x 0) (rotl n (Z.land (nth a x 0 + nth b x 0) mask32))) x.

Definition quarter (q : nat * nat * nat * nat) (x : list Z) : list Z :=
  let '(a, b, c, d) := q in
  let x := step a d b 7 x in
  let x := step b a c 9 x in
  let x := step c b d 13 x in
  step d c a 18 x.

Definition double_round (x : list Z) : list Z :=
  fold_left (fun x q => quarter q x)
    [(0, 4, 8, 12); (5, 9, 13, 1); (10, 14, 2, 6); (15, 3, 7, 11);
     (0, 1, 2, 3); (5, 6, 7, 4); (10, 11, 8, 9); (15, 12, 13, 14)]%nat x.

Definition salsa20_8 (block : list Z) : list Z :=
  let x0 := map le (chunk 4 block) in
  let x := double_round (double_round (double_round (double_round x0))) in
  flat_map (to_le 4) (map (fun q => Z.land (fst q + snd q) mask32) (combine x0 x)).

Definition blockMix (B : list Z) : list Z :=
  let blocks := chunk 64 B in
  let ys :=
    fst (fold_left
      (fun (st : list (list Z) * list Z) b =>
         let x := salsa20_8 (xors (snd st) b) in (fst st ++ [x], x))
      blocks ([], last blocks [])) in
  let pick (par : bool) :=
    flat_map (fun q : nat * list Z => if Bool.eqb (Nat.even (fst q)) par then snd q else [])
      (combine (seq 0 (length ys)) ys) in
  pick true ++ pick false.

Definition integerify (X : list Z) : Z := le (firstn 8 (skipn (length X - 64) X)).

Fixpoint fill (n : nat) (X : list Z) (V : list (list Z)) : list (list Z) * list Z :=
  match n with
  | O => (rev V, X)
  | S n' => fill n' (blockMix X) (X :: V)
  end.

Fixpoint mix (n : nat) (N : Z) (V : list (list Z)) (X : list Z) : list Z :=
  match n with
  | O => X
  | S n' =>
      let j := Z.to_nat (integerify X mod N) in
      mix n' N V (blockMix (xors X (nth j V [])))
  end.

Definition roMix (N : Z) (B : list Z) : list Z :=
  let '(V, X) := fill (Z.to_nat N) B [] in
  mix (Z.to_nat N) N V X.

(** scrypt on the password's HMAC key block: the password enters only as the
    key of the two PBKDF2 passes. *)
Definition derive (kb salt : list Z) (N r p : Z) (dkLen : nat) : list Z :=
  let B := Pbkdf2.derive kb salt 1 (Z.to_nat (p * 128 * r)) in
  let B' := flat_map (roMix N) (chunk (Z.to_nat (128 * r)) B) in
  Pbkdf2.derive kb B' 1 dkLen.

Definition scrypt (password salt : Buffer.t) (N r p : Z) (dkLen : nat) : Buffer.t :=
  map ofZ (derive (Hmac.key_block (map toZ password)) (map toZ salt) N r p dkLen).

End Scrypt.

(** ** AES-128 (FIPS 197) in counter mode (SP 800-38A) *)

Module Aes.
Local Open Scope Z_scope.
Import Bytes.

Definition xtime (x : Z) : Z :=
  let y := Z.shiftl x 1 in
  if Z.testbit x 7 then Z.lxor (Z.land y 255) 27 else y.

Fixpoint gmul_aux (n : nat) (a b acc : Z) : Z :=
  match n with
  | O => acc
  | S n' => gmul_aux n' (xtime a) (Z.shiftr b 1) (if Z.odd b then Z.lxor acc a else acc)
  end.

Definition gmul (a b : Z) : Z := gmul_aux 8 a b 0.

Fixpoint gpow (n : nat) (a : Z) : Z :=
  match n with
  | O => 1
  | S n' => gmul a (gpow n' a)
  end.

Definition rotl8 (n x : Z) : Z := Z.lor (Z.land (Z.shiftl x n) 255) (Z.shiftr x (8 - n)).

(** The S-box: the inverse in GF(2^8) followed by the affine map. *)
Definition sbox_of (x : Z) : Z :=
  let i := gpow 254 x in
  Z.lxor (Z.lxor (Z.lxor i (rotl8 1 i)) (Z.lxor (rotl8 2 i) (rotl8 3 i)))
         (Z.lxor (rotl8 4 i) 99).

Definition sbox_table : list Z :=
  Eval vm_compute in map (fun k => sbox_of (Z.of_nat k)) (seq 0 256).

Definition sbox (x : Z) : Z := nth (Z.to_nat x) sbox_table 0.

(** The key schedule, newest word first; [rc] is the constant of the next round. *)
Fixpoint expand (n i : nat) (rc : Z) (w : list (list Z)) : list (list Z) :=
  match n with
  | O => w
  | S n' =>
      let prev := nth 0 w [] in
      let old := nth 3 w [] in
      if (i mod 4 =? 0)%nat then
        let t := match map sbox prev with
                 | [a; b; c; d] => [Z.lxor b rc; c; d; a]
                 | l => l
                 end in
        expand n' (S i) (xtime rc) (xors old t :: w)
      else expand n' (S i) rc (xors old prev :: w)
  end.

Definition round_keys (key : list Z) : list (list Z) :=
  map (@concat Z) (chunk 4 (rev (expand 40 4 1 (rev (chunk 4 key))))).

Definition shift_rows (s : list Z) : list Z :=
  map (fun i => nth (i mod 4 + 4 * ((i / 4 + i mod 4) mod 4))%nat s 0) (seq 0 16).

Definition mix_column (c : list Z) : list Z :=
  match c with
  | [a0; a1; a2; a3] =>
      [Z.lxor (Z.lxor (xtime a0) (Z.lxor (xtime a1) a1)) (Z.lxor a2 a3);
       Z.lxor (Z.lxor a0 (xtime a1)) (Z.lxor (Z.lxor (xtime a2) a2) a3);
       Z.lxor (Z.lxor a0 a1) (Z.lxor (xtime a2) (Z.lxor (xtime a3) a3));
       Z.lxor (Z.lxor (Z.lxor (xtime a0) a0) a1) (Z.lxor a2 (xtime a3))]
  | _ => c
  end.

Definition mix_columns (s : list Z) : list Z := flat_map mix_column (chunk 4 s).

Definition encrypt_block (key block : list Z) : list Z :=
  match round_keys key with
  | k0 :: ks =>
      let s := fold_left (fun s k => xors (mix_columns (shift_rows (map sbox s))) k)
                         (firstn 9 ks) (xors block k0) in
      xors (shift_rows (map sbox s)) (last ks [])
  | [] => block
  end.

(** The key stream of counter mode: the iv is a 128-bit big-endian counter
    (writing it back on 16 octets wraps it around). *)
Definition keystream (key iv : Buffer.t) (blocks : nat) : Buffer.t :=
  map ofZ
    (flat_map
       (fun i => encrypt_block (map toZ key)
                   (to_be 16 (be (map toZ iv) + Z.of_nat i)))
       (seq 0 blocks)).

(** aes-128-ctr over [data], from the start of the key stream.  Encryption and
    decryption are the same operation. *)
Definition ctr (key iv data : Buffer.t) : Buffer.t :=
  xor_stream data (keystream key iv ((length data + 15) / 16)).

End Aes.

(** ** Keccak-256 (the [Keccak] class of the sha3 package: padding 0x01) *)

Module Keccak.
Local Open Scope Z_scope.
Import Bytes.

Definition rotl64 (n x : Z) : Z := Z.lor (Z.land (Z.shiftl x n) mask64) (Z.shiftr x (64 - n)).

Fixpoint lfsr (n : nat) (R : Z) (acc : list bool) : list bool :=
  match n with
  | O => rev acc
  | S n' =>
      let R' := Z.shiftl R 1 in
      lfsr n' (if Z.testbit R' 8 then Z.lxor R' 369 else R') (Z.odd R :: acc)
  end.

Definition round_constants : list Z :=
  Eval vm_compute in
    map (fun bits =>
           fold_left Z.lor
             (map (fun q : nat * bool => if snd q then 2 ^ (2 ^ Z.of_nat (fst q) - 1) else 0)
                  (combine (seq 0 7) bits)) 0)
        (chunk 7 (lfsr 168 1 [])).

Fixpoint offsets (n : nat) (t x y : Z) (acc : list (Z * Z * Z)) : list (Z * Z * Z) :=
  match n with
  | O => acc
  | S n' =>
      offsets n' (t + 1) y ((2 * x + 3 * y) mod 5)
              ((x, y, ((t + 1) * (t + 2) / 2) mod 64) :: acc)
  end.

Definition rho_table : list (Z * Z * Z) :=
  Eval vm_compute in (0, 0, 0) :: offsets 24 0 1 0 [].

Definition rho_of (x y : Z) : Z :=
  match find (fun e => (fst (fst e) =? x) && (snd (fst e) =? y)) rho_table with
  | Some e => snd e
  | None => 0
  end.

Definition lane (A : list Z) (x y : Z) : Z := nth (Z.to_nat (x mod 5 + 5 * (y mod 5))) A 0.

Definition coords : list (Z * Z) :=
  Eval vm_compute in map (fun i => (Z.of_nat (i mod 5), Z.of_nat (i / 5))) (seq 0 25).

Definition theta (A : list Z) : list Z :=
  let C x := fold_left Z.lxor (map (lane A x) [1; 2; 3; 4]) (lane A x 0) in
  let Cs := map C [0; 1; 2; 3; 4] in
  let c x := nth (Z.to_nat (x mod 5)) Cs 0 in
  map (fun xy => Z.lxor (lane A (fst xy) (snd xy))
                        (Z.lxor (c (fst xy - 1)) (rotl64 1 (c (fst xy + 1))))) coords.

(** [B[y][2x+3y] = rot(A[x][y])], read from the side of [B]. *)
Definition rho_pi (A : list Z) : list Z :=
  map (fun xy =>
         let x := (fst xy + 3 * snd xy) mod 5 in
         let y := fst xy in
         rotl64 (rho_of x y) (lane A x y)) coords.

Definition chi (B : list Z) : list Z :=
  map (fun xy =>
         let x := fst xy in
         let y := snd xy in
         Z.lxor (lane B x y)
                (Z.land (Z.lxor (lane B (x + 1) y) mask64) (lane B (x + 2) y))) coords.

Definition iota (rc : Z) (A : list Z) : list Z :=
  match A with
  | a :: rest => Z.lxor a rc :: rest
  | [] => []
  end.

Definition keccak_f (A : list Z) : list Z :=
  fold_left (fun A rc => iota rc (chi (rho_pi (theta A)))) round_constants A.

Definition rate : nat := 136.

Definition pad (msg : list Z) : list Z :=
  let q := (rate - length msg mod rate)%nat in
  if (q =? 1)%nat then msg ++ [129] else msg ++ 1 :: repeat 0 (q - 2) ++ [128].

Definition absorb (A : list Z) (block : list Z) : list Z :=
  let lanes := map le (chunk 8 block) in
  keccak_f (xors A (lanes ++ repeat 0 (25 - length lanes))).

Definition keccak256 (msg : Buffer.t) : Buffer.t :=
  map ofZ
    (firstn 32 (flat_map (to_le 8) (fold_left absorb (chunk rate (pad (map toZ msg))) (repeat 0 25)))).

End Keccak.

(** ** JavaScript values and [JSON.parse] (ECMA-404)

    Strings are held as their UTF-8 octets; a number keeps its lexeme. *)

Inductive jsval : Type :=
| JUndefined
| JNull
| JBool (b : bool)
| JNumber (lexeme : string)
| JString (s : string)
| JArray (items : list jsval)
| JObject (members : list (string * jsval)).

Module Json.
Local Open Scope string_scope.

Definition code (c : ascii) : nat := nat_of_ascii c.

Definition is_ws (c : ascii) : bool :=
  let k := code c in (k =? 32)%nat || (k =? 9)%nat || (k =? 10)%nat || (k =? 13)%nat.

Definition is_digit (c : ascii) : bool :=
  let k := code c in (48 <=? k)%nat && (k <=? 57)%nat.

Definition one (k : nat) : string := String (ascii_of_nat k) EmptyString.

Fixpoint skip_ws (s : string) : string :=
  match s with
  | String c rest => if is_ws c then skip_ws rest else s
  | EmptyString => s
  end.

Fixpoint expect (lit s : string) : option string :=
  match lit, s with
  | EmptyString, _ => Some s
  | String a l, String b rest => if Ascii.eqb a b then expect l rest else None
  | _, EmptyString => None
  end.

Definition hexval (c : ascii) : option nat := option_map Z.to_nat (Buffer.hexval c).

(** A UTF-16 code unit written as UTF-8. *)
Definition utf8 (u : nat) : string :=
  if (u <? 128)%nat then one u
  else if (u <? 2048)%nat then one (192 + u / 64) ++ one (128 + u mod 64)
  else one (224 + u / 4096) ++ one (128 + (u / 64) mod 64) ++ one (128 + u mod 64).

Definition unicode_escape (s : string) : option (string * string) :=
  match s with
  | String a (String b (String c (String d rest))) =>
      match hexval a, hexval b, hexval c, hexval d with
      | Some x, Some y, Some z, Some w => Some (utf8 (((x * 16 + y) * 16 + z) * 16 + w), rest)
      | _, _, _, _ => None
      end
  | _ => None
  end.

Definition escape (c : ascii) : option nat :=
  match code c with
  | 34 => Some 34
  | 92 => Some 92
  | 47 => Some 47
  | 98 => Some 8
  | 102 => Some 12
  | 110 => Some 10
  | 114 => Some 13
  | 116 => Some 9
  | _ => None
  end%nat.

(** The characters after an opening quote, up to the closing one. *)
Fixpoint chars (fuel : nat) (s acc : string) : option (string * string) :=
  match fuel with
  | O => None
  | S f =>
      match s with
      | EmptyString => None
      | String c rest =>
          if (code c =? 34)%nat then Some (acc, rest)
          else if (code c =? 92)%nat then
            match rest with
            | String e rest' =>
                if (code e =? 117)%nat then
                  match unicode_escape rest' with
                  | Some (u, rest'') => chars f rest'' (acc ++ u)
                  | None => None
                  end
                else
                  match escape e with
                  | Some k => chars f rest' (acc ++ one k)
                  | None => None
                  end
            | EmptyString => None
            end
          else if (code c <? 32)%nat then None
          else chars f rest (acc ++ String c EmptyString)
      end
  end.

Fixpoint digits (s acc : string) : string * string :=
  match s with
  | String c rest => if is_digit c then digits rest (acc ++ String c EmptyString) else (acc, s)
  | EmptyString => (acc, s)
  end.

(** An optional minus, an integer part without a leading zero, then an
    optional fraction and an optional exponent. *)
Definition number (s : string) : option (string * string) :=
  let '(sign, s1) := match s with
                     | String "-" rest => ("-", rest)
                     | _ => ("", s)
                     end in
  let '(int, s2) := digits s1 "" in
  let int_ok := match int with
                | EmptyString => false
                | String "0" (String _ _) => false
                | _ => true
                end in
  if negb int_ok then None else
  let frac := match s2 with
              | String "." rest =>
                  let '(f, rest') := digits rest "" in
                  match f with
                  | EmptyString => None
                  | _ => Some ("." ++ f, rest')
                  end
              | _ => Some ("", s2)
              end in
  match frac with
  | None => None
  | Some (f, s3) =>
      match s3 with
      | String e rest =>
          if (code e =? 101)%nat || (code e =? 69)%nat then
            let '(sg, r1) := match rest with
                             | String "+" rest' => ("+", rest')
                             | String "-" rest' => ("-", rest')
                             | _ => ("", rest)
                             end in
            let '(x, r2) := digits r1 "" in
            match x with
            | EmptyString => None
            | _ => Some (sign ++ int ++ f ++ String e (sg ++ x), r2)
            end
          else Some (sign ++ int ++ f, s3)
      | EmptyString => Some (sign ++ int ++ f, s3)
      end
  end.

Section Containers.
Variable value : string -> option (jsval * string).

(** The elements of an array, after its opening bracket. *)
Fixpoint elements (fuel : nat) (s : string) (acc : list jsval) : option (jsval * string) :=
  match fuel with
  | O => None
  | S f =>
      match value s with
      | Some (v, rest) =>
          match skip_ws rest with
          | String c rest' =>
              if Ascii.eqb c "," then elements f rest' (acc ++ [v])
              else if Ascii.eqb c "]" then Some (JArray (acc ++ [v]), rest')
              else None
          | EmptyString => None
          end
      | None => None
      end
  end.

(** One member, [key : value], of an object. *)
Definition member (s : string) : option (string * jsval * string) :=
  match skip_ws s with
  | String q r0 =>
      if negb (Ascii.eqb q "034") then None
      else
        match chars (String.length r0) r0 "" with
        | Some (k, r1) =>
            match skip_ws r1 with
            | String c r2 =>
                if negb (Ascii.eqb c ":") then None
                else
                  match value r2 with
                  | Some (v, r3) => Some (k, v, r3)
                  | None => None
                  end
            | EmptyString => None
            end
        | None => None
        end
  | EmptyString => None
  end.

(** The members of an object, after its opening brace. *)
Fixpoint members (fuel : nat) (s : string) (acc : list (string * jsval)) : option (jsval * string) :=
  match fuel with
  | O => None
  | S f =>
      match member s with
      | Some (k, v, rest) =>
          match skip_ws rest with
          | String c rest' =>
              if Ascii.eqb c "," then members f rest' (acc ++ [(k, v)])
              else if Ascii.eqb c "}" then Some (JObject (acc ++ [(k, v)]), rest')
              else None
          | EmptyString => None
          end
      | None => None
      end
  end.
End Containers.

Fixpoint value (fuel : nat) (s : string) : option (jsval * string) :=
  match fuel with
  | O => None
  | S f =>
      match skip_ws s with
      | EmptyString => None
      | String c rest as s' =>
          if Ascii.eqb c "{" then
            match skip_ws rest with
            | String "}" rest' => Some (JObject [], rest')
            | _ => members (value f) (String.length rest) rest []
            end
          else if Ascii.eqb c "[" then
            match skip_ws rest with
            | String "]" rest' => Some (JArray [], rest')
            | _ => elements (value f) (String.length rest) rest []
            end
          else if Ascii.eqb c "034" then
            match chars (String.length rest) rest "" with
            | Some (v, rest') => Some (JString v, rest')
            | None => None
            end
          else if Ascii.eqb c "t" then option_map (pair (JBool true)) (expect "true" s')
          else if Ascii.eqb c "f" then option_map (pair (JBool false)) (expect "false" s')
          else if Ascii.eqb c "n" then option_map (pair JNull) (expect "null" s')
          else option_map (fun q => (JNumber (fst q), snd q)) (number s')
      end
  end.

(** [JSON.parse(text)]: the value, or [None] where it throws [SyntaxError]. *)
Definition parse (text : string) : option jsval :=
  match value (S (String.length text)) text with
  | Some (v, rest) =>
      match skip_ws rest with
      | EmptyString => Some v
      | _ => None
      end
  | None => None
  end.

(** Single quotes turned into double quotes, to write JSON texts in this file. *)
Definition dq (s : string) : string :=
  string_of_list_ascii
    (map (fun c => if (code c =? 39)%nat then "034"%char else c) (list_ascii_of_string s)).

End Json.

(** ** The runtime: exceptions, the random source, and the calls into
    [crypto], [sha3] and [uuid] *)

Module Node.
Local Open Scope string_scope.

(** The three exceptions of the application ([exceptions]) and those the
    runtime and its crypto provider throw on their own. *)
Inductive exn : Type :=
| InvalidKeystore
| UnsupportedCipher
| IncorrectPassword
| SyntaxError
| TypeError
| CryptoError (message : string).

Inductive completion (A : Type) : Type :=
| Returned (a : A)
| Thrown (e : exn).
Arguments Returned {A} a.
Arguments Thrown {A} e.

(** The library calls a method makes, in the order it makes them. *)
Inductive call : Type :=
| Call_randomBytes (size : nat)
| Call_scryptSync
| Call_createCipheriv
| Call_createDecipheriv
| Call_update
| Call_final
| Call_Keccak_digest
| Call_uuid.

(** The system random source is a stream of octets read from the left;
    [calls] records what has been asked of the libraries so far. *)
Record world : Type := mkWorld {
  entropy : nat -> byte;
  consumed : nat;
  calls : list call
}.

Definition M (A : Type) : Type := world -> completion A * world.

Definition ret {A} (a : A) : M A := fun w => (Returned a, w).

Definition throw {A} (e : exn) : M A := fun w => (Thrown e, w).

Definition bind {A B} (m : M A) (k : A -> M B) : M B :=
  fun w =>
    match m w with
    | (Returned a, w') => k a w'
    | (Thrown e, w') => (Thrown e, w')
    end.

(** [try { m } catch { h }] *)
Definition try_catch {A} (m : M A) (h : M A) : M A :=
  fun w =>
    match m w with
    | (Returned a, w') => (Returned a, w')
    | (Thrown _, w') => h w'
    end.

(** The world after one more library call, and after [size] octets were read. *)
Definition note (c : call) (w : world) : world :=
  mkWorld (entropy w) (consumed w) (calls w ++ [c]).

Definition advance (size : nat) (w : world) : world :=
  mkWorld (entropy w) (consumed w + size) (calls w).

Definition next_octets (size : nat) (w : world) : Buffer.t :=
  map (entropy w) (seq (consumed w) size).

Definition log (c : call) : M unit := fun w => (Returned tt, note c w).

Definition draw (size : nat) : M Buffer.t :=
  fun w => (Returned (next_octets size w), advance size w).

Declare Scope node_scope.
Delimit Scope node_scope with node.
Notation "x <- m ;; k" := (bind m (fun x => k))
  (at level 61, m at next level, right associativity) : node_scope.
Notation "m ;; k" := (bind m (fun _ => k))
  (at level 61, right associativity) : node_scope.
Local Open Scope node_scope.

(** [!x] for an object reference [x]: an object is never falsy. *)
Definition not_object {A} (x : A) : bool := false.

(** [JSON.parse] *)
Definition JSON_parse (text : string) : M jsval :=
  match Json.parse text with
  | Some v => ret v
  | None => throw SyntaxError
  end.

Fixpoint last_member (key : string) (ms : list (string * jsval)) (found : jsval) : jsval :=
  match ms with
  | [] => found
  | (k, v) :: rest => last_member key rest (if String.eqb k key then v else found)
  end.

(** [o.key], for the keys read in this file ([crypto] and [id], which are
    properties of no array, string, number or boolean): reading a property of
    [undefined] or [null] throws, an object gives the last member of that
    name, anything else gives [undefined]. *)
Definition get (o : jsval) (key : string) : M jsval :=
  match o with
  | JUndefined | JNull => throw TypeError
  | JObject ms => ret (last_member key ms JUndefined)
  | _ => ret JUndefined
  end.

(** [crypto.randomBytes(size)] *)
Definition randomBytes (size : nat) : M Buffer.t :=
  log (Call_randomBytes size) ;; draw size.

(** [uuid.v4()]: sixteen random octets with the version and variant bits set,
    in the 8-4-4-4-12 layout. *)
Definition uuid_format (rnds : Buffer.t) : string :=
  let v6 := Bytes.ofZ (Z.lor (Z.land (Bytes.toZ (nth 6 rnds x00)) 15) 64) in
  let v8 := Bytes.ofZ (Z.lor (Z.land (Bytes.toZ (nth 8 rnds x00)) 63) 128) in
  Buffer.toString_hex (Buffer.slice rnds 0 4) ++ "-" ++
  Buffer.toString_hex (Buffer.slice rnds 4 6) ++ "-" ++
  Buffer.toString_hex (v6 :: Buffer.slice rnds 7 8) ++ "-" ++
  Buffer.toString_hex (v8 :: Buffer.slice rnds 9 10) ++ "-" ++
  Buffer.toString_hex (Buffer.slice rnds 10 16).

Definition uuid : M string :=
  log Call_uuid ;; rnds <- draw 16 ;; ret (uuid_format rnds).

Definition is_pow2 (N : Z) : bool := ((0 <? N) && (Z.land N (N - 1) =? 0))%Z.

(** What [crypto.scryptSync] accepts: a key length that is a non-negative
    32-bit integer, cost parameters in the ranges of RFC 7914, and a memory
    need within the default [maxmem] of 32 MiB. *)
Definition scrypt_params_ok (keylen N r p : Z) : bool :=
  ((0 <=? keylen) && (keylen <? 2 ^ 31) &&
   (N <? 2 ^ 32) && (r <? 2 ^ 32) && (p <? 2 ^ 32) &&
   (1 <=? r) && (1 <=? p) && (2 <=? N) && is_pow2 N &&
   (p <=? (2 ^ 30 - 1) / r) &&
   ((63 <? 16 * r) || (N <? 2 ^ (16 * r))) &&
   (p * 128 * r + 128 * r * (N + 2) <=? 32 * 1024 * 1024))%Z.

(** [crypto.scryptSync(password, salt, keylen, { N, r, p })]; the password
    string is taken as its UTF-8 octets. *)
Definition scryptSync (password : string) (salt : Buffer.t) (keylen N r p : Z) : M Buffer.t :=
  log Call_scryptSync ;;
  if scrypt_params_ok keylen N r p
  then ret (Scrypt.scrypt (Buffer.of_string password) salt N r p (Z.to_nat keylen))
  else throw (CryptoError "Invalid scrypt parameter").

(** The ciphers of the provider other than aes-128-ctr are not modelled:
    [other_cipher algorithm key iv] is [None] where the provider refuses the
    algorithm, the key or the iv, and otherwise the transformation of the
    cipher object ([true]: encrypting), which is [None] where [update] or
    [final] throws. *)
Class OpenSSL : Type :=
  other_cipher : string -> Buffer.t -> Buffer.t -> option (bool -> Buffer.t -> option Buffer.t).

(** A cipher or decipher object. *)
Inductive Cipher : Type :=
| AesCtr (key iv : Buffer.t)
| Foreign (transform : Buffer.t -> option Buffer.t).

Definition cipheriv `{OpenSSL} (encrypting : bool) (algorithm : string) (key iv : Buffer.t)
  : M Cipher :=
  if String.eqb algorithm "aes-128-ctr" then
    if negb (length key =? 16)%nat then throw (CryptoError "Invalid key length")
    else if negb (length iv =? 16)%nat then throw (CryptoError "Invalid initialization vector")
    else ret (AesCtr key iv)
  else
    match other_cipher algorithm key iv with
    | Some f => ret (Foreign (f encrypting))
    | None => throw (CryptoError "Cipher refused")
    end.

(** [crypto.createCipheriv(algorithm, key, iv)] *)
Definition createCipheriv `{OpenSSL} (algorithm : string) (key iv : Buffer.t) : M Cipher :=
  log Call_createCipheriv ;; cipheriv true algorithm key iv.

(** [crypto.createDecipheriv(algorithm, key, iv)] *)
Definition createDecipheriv `{OpenSSL} (algorithm : string) (key iv : Buffer.t) : M Cipher :=
  log Call_createDecipheriv ;; cipheriv false algorithm key iv.

(** [Buffer.concat([c.update(data), c.final()])] on a fresh object [c].  In
    counter mode [update] gives all of the output and [final] none. *)
Definition update_final (c : Cipher) (data : Buffer.t) : M Buffer.t :=
  log Call_update ;;
  match c with
  | AesCtr key iv => log Call_final ;; ret (Aes.ctr key iv data ++ [])%list
  | Foreign f =>
      match f data with
      | Some out => log Call_final ;; ret out
      | None => throw (CryptoError "Cipher failed")
      end
  end.

(** The value of [new Keccak(256).update(data).digest('hex')]. *)
Definition keccak256_hex (data : Buffer.t) : string :=
  Buffer.toString_hex (Keccak.keccak256 data).

Definition Keccak_digest_hex (data : Buffer.t) : M string :=
  log Call_Keccak_digest ;; ret (keccak256_hex data).

(** *** Vocabulary of the statements *)

Definition cmap {A B} (f : A -> B) (c : completion A) : completion B :=
  match c with
  | Returned a => Returned (f a)
  | Thrown e => Thrown e
  end.

(** A provider with no cipher but aes-128-ctr, and a world whose random source
    gives zeros and in which nothing has been called yet. *)
Definition only_aes : OpenSSL := fun _ _ _ => None.

Definition quiet : world := mkWorld (fun _ => x00) 0 [].

(** The one-character string U+0000. *)
Definition nul : string := String "000" EmptyString.

End Node.

(** ** The secret *)

Module ExtendedPrivateKey.

(** Modelled from the spec: the class [ExtendedPrivateKey] of [./key] is not
    among the sources.  The keystore uses nothing of it but [serialize()],
    which gives the secret as a hex string. *)
Record t : Type := make { serialize : string }.

(** Modelled from the spec: [parse], which takes the hex string back to the
    secret ("both total and inverse of each other"). *)
Definition parse (serialized : string) : t := make serialized.

End ExtendedPrivateKey.

(** ** keystore.ts *)

Module Keystore.
Import Node.
Local Open Scope string_scope.
Local Open Scope node_scope.

Definition CIPHER : string := "aes-128-ctr".

Module CipherParams.
Record t : Type := make { iv : string }.
End CipherParams.

Module KdfParams.
Record t : Type := make { dklen : Z; n : Z; r : Z; p : Z; salt : string }.
End KdfParams.

Module Crypto.
Record t : Type := make {
  cipher : string;
  cipherparams : CipherParams.t;
  ciphertext : string;
  kdf : string;
  kdfparams : KdfParams.t;
  mac : string
}.
End Crypto.

(** An instance of the class.  TypeScript gives [crypto] the type [Crypto] and
    [id] the type [string]; [fromJson] stores what [JSON.parse] produced
    without a check, so the record is parametric in both. *)
Record object (C I : Type) : Type := mkObject {
  crypto : C;
  id : I;
  version : Z
}.
Arguments mkObject {C I} crypto id version.
Arguments crypto {C I} o.
Arguments id {C I} o.
Arguments version {C I} o.

Definition t : Type := object Crypto.t string.

(** [constructor(theCrypto, id)], with the field initialiser [version = 3]. *)
Definition new {C I} (theCrypto : C) (id : I) : object C I :=
  {| crypto := theCrypto; id := id; version := 3 |}.

Definition fromJson (json : string) : M (object jsval jsval) :=
  try_catch
    (object <- JSON_parse json ;;
     theCrypto <- get object "crypto" ;;
     id <- get object "id" ;;
     ret (new theCrypto id))
    (throw InvalidKeystore).

Module Options.
Record t : Type := make { salt : option Buffer.t; iv : option Buffer.t }.
End Options.

Definition create `{OpenSSL} (extendedPrivateKey : ExtendedPrivateKey.t) (password : string)
    (options : Options.t) : M t :=
  salt <- match Options.salt options with
          | Some b => ret b
          | None => randomBytes 32
          end ;;
  iv <- match Options.iv options with
        | Some b => ret b
        | None => randomBytes 16
        end ;;
  let kdfparams :=
    {| KdfParams.dklen := 32;
       KdfParams.salt := Buffer.toString_hex salt;
       KdfParams.n := 8192;
       KdfParams.r := 8;
       KdfParams.p := 1 |} in
  derivedKey <- scryptSync password salt (KdfParams.dklen kdfparams)
                  (KdfParams.n kdfparams) (KdfParams.r kdfparams) (KdfParams.p kdfparams) ;;
  cipher <- createCipheriv CIPHER (Buffer.slice derivedKey 0 16) iv ;;
  if not_object cipher then throw UnsupportedCipher
  else
    ciphertext <- update_final cipher
                    (Buffer.from_hex (ExtendedPrivateKey.serialize extendedPrivateKey)) ;;
    mac <- Keccak_digest_hex (Buffer.slice derivedKey 16 32 ++ ciphertext)%list ;;
    let theCrypto :=
      {| Crypto.ciphertext := Buffer.toString_hex ciphertext;
         Crypto.cipherparams := {| CipherParams.iv := Buffer.toString_hex iv |};
         Crypto.cipher := CIPHER;
         Crypto.kdf := "scrypt";
         Crypto.kdfparams := kdfparams;
         Crypto.mac := mac |} in
    id <- uuid ;;
    ret (new theCrypto id).

Definition derivedKey (this : t) (password : string) : M Buffer.t :=
  let kdfparams := Crypto.kdfparams (crypto this) in
  scryptSync password (Buffer.from_hex (KdfParams.salt kdfparams)) (KdfParams.dklen kdfparams)
    (KdfParams.n kdfparams) (KdfParams.r kdfparams) (KdfParams.p kdfparams).

Definition mac (derivedKey ciphertext : Buffer.t) : M string :=
  Keccak_digest_hex (Buffer.slice derivedKey 16 32 ++ ciphertext)%list.

(** Decrypt and return serialized extended private key. *)
Definition decrypt `{OpenSSL} (this : t) (password : string) : M string :=
  derivedKey <- derivedKey this password ;;
  let ciphertext := Buffer.from_hex (Crypto.ciphertext (crypto this)) in
  m <- mac derivedKey ciphertext ;;
  if negb (String.eqb m (Crypto.mac (crypto this))) then throw IncorrectPassword
  else
    decipher <- createDecipheriv (Crypto.cipher (crypto this)) (Buffer.slice derivedKey 0 16)
                  (Buffer.from_hex (CipherParams.iv (Crypto.cipherparams (crypto this)))) ;;
    plain <- update_final decipher ciphertext ;;
    ret (Buffer.toString_hex plain).

Definition extendedPrivateKey `{OpenSSL} (this : t) (password : string)
  : M ExtendedPrivateKey.t :=
  serialized <- decrypt this password ;;
  ret (ExtendedPrivateKey.parse serialized).

Definition checkPassword (this : t) (password : string) : M bool :=
  derivedKey <- derivedKey this password ;;
  let ciphertext := Buffer.from_hex (Crypto.ciphertext (crypto this)) in
  m <- mac derivedKey ciphertext ;;
  ret (String.eqb m (Crypto.mac (crypto this))).

(** *** Vocabulary of the statements

    None of what follows is in keystore.ts: these are the names the lemmas
    use for what [create] and [decrypt] compute on the way. *)

(** The iv given in the options, if any, has the 16 octets of the cipher. *)
Definition iv_fits (options : Options.t) : Prop :=
  match Options.iv options with
  | Some b => length b = 16
  | None => True
  end.

(** The salt and the iv [create] works with in the world [w], and the world
    after each has been chosen. *)
Definition salt_of (options : Options.t) (w : world) : Buffer.t :=
  match Options.salt options with
  | Some b => b
  | None => next_octets 32 w
  end.

Definition after_salt (options : Options.t) (w : world) : world :=
  match Options.salt options with
  | Some _ => w
  | None => advance 32 (note (Call_randomBytes 32) w)
  end.

Definition iv_of (options : Options.t) (w : world) : Buffer.t :=
  match Options.iv options with
  | Some b => b
  | None => next_octets 16 (after_salt options w)
  end.

Definition after_iv (options : Options.t) (w : world) : world :=
  match Options.iv options with
  | Some _ => after_salt options w
  | None => advance 16 (note (Call_randomBytes 16) (after_salt options w))
  end.

(** The envelope [create] assembles from a password, a salt, an iv and the
    serialized secret. *)
Definition sealed (password : string) (salt iv : Buffer.t) (secret : string) : Crypto.t :=
  let dk := Scrypt.scrypt (Buffer.of_string password) salt 8192 8 1 32 in
  let ct := Aes.ctr (Buffer.slice dk 0 16) iv (Buffer.from_hex secret) in
  {| Crypto.cipher := CIPHER;
     Crypto.cipherparams := {| CipherParams.iv := Buffer.toString_hex iv |};
     Crypto.ciphertext := Buffer.toString_hex ct;
     Crypto.kdf := "scrypt";
     Crypto.kdfparams := {| KdfParams.dklen := 32; KdfParams.n := 8192; KdfParams.r := 8;
                            KdfParams.p := 1; KdfParams.salt := Buffer.toString_hex salt |};
     Crypto.mac := keccak256_hex (Buffer.slice dk 16 32 ++ ct)%list |}.

(** The MAC [decrypt] and [checkPassword] compare with the stored one. *)
Definition recomputed_mac (ks : t) (dk : Buffer.t) : string :=
  keccak256_hex (Buffer.slice dk 16 32 ++ Buffer.from_hex (Crypto.ciphertext (crypto ks)))%list.

(** The steps of [decrypt] after the MAC has been found right. *)
Definition decipher_steps `{OpenSSL} (ks : t) (dk : Buffer.t) : M string :=
  decipher <- createDecipheriv (Crypto.cipher (crypto ks)) (Buffer.slice dk 0 16)
                (Buffer.from_hex (CipherParams.iv (Crypto.cipherparams (crypto ks)))) ;;
  plain <- update_final decipher (Buffer.from_hex (Crypto.ciphertext (crypto ks))) ;;
  ret (Buffer.toString_hex plain).

(** *** Inputs of the examples *)

Definition salt0 : Buffer.t :=
  Buffer.from_hex "1111111111111111111111111111111111111111111111111111111111111111".

Definition iv0 : Buffer.t := Buffer.from_hex "22222222222222222222222222222222".

Definition fixed : Options.t := {| Options.salt := Some salt0; Options.iv := Some iv0 |}.

(** Sixty-four zero octets in hex. *)
Definition zeros : string :=
  "00000000000000000000000000000000000000000000000000000000000000000000000000000000000000000000000000000000000000000000000000000000".

Definition secret0 : ExtendedPrivateKey.t := ExtendedPrivateKey.make zeros.

Definition secret_upper : ExtendedPrivateKey.t := ExtendedPrivateKey.make "AB".

(** A keystore of the same format with the cheapest scrypt cost ([n = 2],
    [r = 1]), so that it can be opened by computation: [zeros] under the
    password "correct horse", salt [salt0]; the iv is left open. *)
Definition demo_with_iv (iv : string) : t :=
  new {| Crypto.cipher := CIPHER;
         Crypto.cipherparams := {| CipherParams.iv := iv |};
         Crypto.ciphertext :=
           "064357a8fb6cdabfcbca2076a0bc26018cf276c4b34bb866f06b987f4152a4a61c4373da3bdb7c5fea38a9010fe2bdfff678447d4305d568288fd3c4c5e2f701";
         Crypto.kdf := "scrypt";
         Crypto.kdfparams :=
           {| KdfParams.dklen := 32; KdfParams.n := 2; KdfParams.r := 1; KdfParams.p := 1;
              KdfParams.salt :=
                "1111111111111111111111111111111111111111111111111111111111111111" |};
         Crypto.mac := "f6ed133e61cae88662a202278fa1428973e637ef0ee61872691c6bcd25a8c4cc" |}
      "6f1c2f0e-3c0a-4d55-9a37-2b8f0c1d7e42".

Definition demo : t := demo_with_iv "22222222222222222222222222222222".

(** The same keystore with its iv cut to two octets. *)
Definition demo_short_iv : t := demo_with_iv "2222".

End Keystore.

(** ** Keystores rewritten field by field

    Not in keystore.ts: the vocabulary of the statements about what each
    field of a keystore is read for, and further inputs of examples. *)

Module Envelope.
Import Node Keystore.
Local Open Scope string_scope.

(** [ks] with another [mac], and with another [kdfparams]. *)
Definition set_mac (m : string) (ks : Keystore.t) : Keystore.t :=
  let c := crypto ks in
  mkObject
    {| Crypto.cipher := Crypto.cipher c;
       Crypto.cipherparams := Crypto.cipherparams c;
       Crypto.ciphertext := Crypto.ciphertext c;
       Crypto.kdf := Crypto.kdf c;
       Crypto.kdfparams := Crypto.kdfparams c;
       Crypto.mac := m |}
    (id ks) (version ks).


(** Two keystores read alike: the same cipher name, cost parameters and mac,
    and an iv, a ciphertext and a salt that decode to the same octets.  The
    [kdf] name, the [id], the [version] and the spelling of the three hex
    fields are left free. *)
Definition same_reading (a b : Keystore.t) : Prop :=
  Crypto.cipher (crypto a) = Crypto.cipher (crypto b) /\
  Buffer.from_hex (CipherParams.iv (Crypto.cipherparams (crypto a)))
  = Buffer.from_hex (CipherParams.iv (Crypto.cipherparams (crypto b))) /\
  Buffer.from_hex (Crypto.ciphertext (crypto a))
  = Buffer.from_hex (Crypto.ciphertext (crypto b)) /\
  Buffer.from_hex (KdfParams.salt (Crypto.kdfparams (crypto a)))
  = Buffer.from_hex (KdfParams.salt (Crypto.kdfparams (crypto b))) /\
  KdfParams.dklen (Crypto.kdfparams (crypto a)) = KdfParams.dklen (Crypto.kdfparams (crypto b)) /\
  KdfParams.n (Crypto.kdfparams (crypto a)) = KdfParams.n (Crypto.kdfparams (crypto b)) /\
  KdfParams.r (Crypto.kdfparams (crypto a)) = KdfParams.r (Crypto.kdfparams (crypto b)) /\
  KdfParams.p (Crypto.kdfparams (crypto a)) = KdfParams.p (Crypto.kdfparams (crypto b)) /\
  Crypto.mac (crypto a) = Crypto.mac (crypto b).


(** The random source of [w'] is where that of [w] was. *)
Definition same_source (w w' : world) : Prop :=
  entropy w' = entropy w /\ consumed w' = consumed w.

(** The library calls of [create], in order, when it returns; and up to the
    point where it fails on the iv. *)
Definition draw_calls (options : Options.t) : list call :=
  (match Options.salt options with
   | Some _ => []
   | None => [Call_randomBytes 32]
   end ++
   match Options.iv options with
   | Some _ => []
   | None => [Call_randomBytes 16]
   end)%list.

Definition create_calls (options : Options.t) : list call :=
  (draw_calls options ++
   [Call_scryptSync; Call_createCipheriv; Call_update; Call_final; Call_Keccak_digest;
    Call_uuid])%list.


(** The octets [create] reads from the random source. *)
Definition drawn (options : Options.t) : nat :=
  (match Options.salt options with
   | Some _ => 0
   | None => 32
   end +
   match Options.iv options with
   | Some _ => 0
   | None => 16
   end + 16)%nat.

(** The world in which [create] asks for the id. *)
Definition before_id (options : Options.t) (w : world) : world :=
  note Call_Keccak_digest
    (note Call_final
       (note Call_update
          (note Call_createCipheriv (note Call_scryptSync (after_iv options w))))).

(** No option given: [create(secret, password)]. *)
Definition none : Options.t := {| Options.salt := None; Options.iv := None |}.


(** [demo] spelled differently: upper-case digits and text after the hex in
    the ciphertext, text after the salt and the iv, another [kdf] name and
    another id and version. *)
Definition demo_respelled : Keystore.t :=
  mkObject
    {| Crypto.cipher := CIPHER;
       Crypto.cipherparams := {| CipherParams.iv := "22222222222222222222222222222222xyz" |};
       Crypto.ciphertext :=
         "064357A8FB6CDABFCBCA2076A0BC26018CF276C4B34BB866F06B987F4152A4A61C4373DA3BDB7C5FEA38A9010FE2BDFFF678447D4305D568288FD3C4C5E2F701-end";
       Crypto.kdf := "pbkdf2";
       Crypto.kdfparams :=
         {| KdfParams.dklen := 32; KdfParams.n := 2; KdfParams.r := 1; KdfParams.p := 1;
            KdfParams.salt :=
              "1111111111111111111111111111111111111111111111111111111111111111 " |};
       Crypto.mac := "f6ed133e61cae88662a202278fa1428973e637ef0ee61872691c6bcd25a8c4cc" |}
    "another id" 1.


(** [demo] with its mac written in upper case. *)
Definition demo_upper_mac : Keystore.t :=
  set_mac "F6ED133E61CAE88662A202278FA1428973E637EF0EE61872691C6BCD25A8C4CC" demo.

(** A secret whose [serialize()] is no clean hex string: digits of both
    cases, then text. *)
Definition secret_ragged : ExtendedPrivateKey.t := ExtendedPrivateKey.make "0AbCxyz".

End Envelope.

(** * Facts

    ** The primitives against the test vectors of their standards *)

Module KnownAnswers.
Import Buffer.
Local Open Scope string_scope.

Example sha256_abc :
  hex (Sha256.digest (ascii_octets "abc"))
  = "ba7816bf8f01cfea414140de5dae2223b00361a396177a9cb410ff61f20015ad".
Proof. vm_compute. reflexivity. Qed.

Example sha256_two_blocks :
  hex (Sha256.digest (ascii_octets "abcdbcdecdefdefgefghfghighijhijkijkljklmklmnlmnomnopnopq"))
  = "248d6a61d20638b8e5c026930c3e6039a33ce45964ff2167f6ecedd419db06c1".
Proof. vm_compute. reflexivity. Qed.

(** RFC 4231, test case 2. *)
Example hmac_jefe :
  hex (Hmac.hmac (ascii_octets "Jefe") (ascii_octets "what do ya want for nothing?"))
  = "5bdcc146bf60754e6a042426089575c75a003f089d2739839dec58b964ec3843".
Proof. vm_compute. reflexivity. Qed.

(** RFC 7914, section 11. *)
Example pbkdf2_passwd_salt :
  hex (Pbkdf2.pbkdf2 (ascii_octets "passwd") (ascii_octets "salt") 1 64)
  = "55ac046e56e3089fec1691c22544b605f94185216dde0465e68b9d57c20dacbc49ca9cccf179b645991664b39d77ef317c71b845b1e30bd509112041d3a19783".
Proof. vm_compute. reflexivity. Qed.

(** RFC 7914, section 12, first vector. *)
Example scrypt_empty :
  Buffer.toString_hex (Scrypt.scrypt (Buffer.of_string "") (Buffer.of_string "") 16 1 1 64)
  = "77d6576238657b203b19ca42c18a0497f16b4844e3074ae8dfdffa3fede21442fcd0069ded0948f8326a753a0fc81f17e8d3e0fb2e0d3628cf35e20c38d18906".
Proof. vm_compute. reflexivity. Qed.

(** Two blocks per lane ([r = 2]); the value is that of OpenSSL 3.0. *)
Example scrypt_r2 :
  Buffer.toString_hex
    (Scrypt.scrypt (Buffer.of_string "pleaseletmein") (Buffer.of_string "SodiumChloride") 2 2 1 32)
  = "7dc6ed0280d3da4deed0c19fe1adedc8046587b2ec5d44f5784e441b8c9da81c".
Proof. vm_compute. reflexivity. Qed.

(** FIPS 197, appendix C.1. *)
Example aes_fips197 :
  hex (Aes.encrypt_block (map Bytes.toZ (Buffer.from_hex "000102030405060708090a0b0c0d0e0f"))
                         (map Bytes.toZ (Buffer.from_hex "00112233445566778899aabbccddeeff")))
  = "69c4e0d86a7b0430d8cdb78070b4c55a".
Proof. vm_compute. reflexivity. Qed.

(** SP 800-38A, F.5.1, the first two blocks. *)
Example aes_ctr_sp800_38a :
  Buffer.toString_hex
    (Aes.ctr (Buffer.from_hex "2b7e151628aed2a6abf7158809cf4f3c")
             (Buffer.from_hex "f0f1f2f3f4f5f6f7f8f9fafbfcfdfeff")
             (Buffer.from_hex "6bc1bee22e409f96e93d7e117393172aae2d8a571e03ac9c9eb76fac45af8e51"))
  = "874d6191b620e3261bef6864990db6ce9806f66b7970fdff8617187bb9fffdff".
Proof. vm_compute. reflexivity. Qed.

Example keccak256_empty :
  Node.keccak256_hex []
  = "c5d2460186f7233c927e7db2dcc703c0e500b653ca82273b7bfad8045d85a470".
Proof. vm_compute. reflexivity. Qed.

Example keccak256_abc :
  Node.keccak256_hex (Buffer.of_string "abc")
  = "4e03657aea45a94fc7d47ba826c8d667c0d1e6e33a64a036ec44f58fa12d6c45".
Proof. vm_compute. reflexivity. Qed.

Example uuid_layout :
  Node.uuid_format (Buffer.from_hex "ffffffffffffffffffffffffffffffff")
  = "ffffffff-ffff-4fff-bfff-ffffffffffff".
Proof. vm_compute. reflexivity. Qed.

Example json_nested :
  Json.parse (Json.dq " { 'a' : [1, -2.5e+3, true, null, 'x\u0041'], 'b': {}, 'a': 0 } ")
  = Some (JObject [("a", JArray [JNumber "1"; JNumber "-2.5e+3"; JBool true; JNull; JString "xA"]);
                   ("b", JObject []); ("a", JNumber "0")]).
Proof. vm_compute. reflexivity. Qed.

Example json_rejects :
  map Json.parse ["{not json"; "[1,]"; "01"; "nul"; "null x"; "1."; ""; Json.dq "{'a' 1}"]
  = [None; None; None; None; None; None; None; None].
Proof. vm_compute. reflexivity. Qed.

Example hex_decoding_stops :
  map Buffer.from_hex ["AbCd"; "abc"; "11zz22"; "zz11"]
  = [[xab; xcd]; [xab]; [x11]; []].
Proof. vm_compute. reflexivity. Qed.

End KnownAnswers.

(** ** Octets and hex *)

Module BytesFacts.
Import Bytes.
Local Open Scope Z_scope.

Lemma toZ_range (b : byte) : 0 <= toZ b < 256.
Proof.
  unfold toZ. pose proof (Byte.to_N_bounded b). lia.
Qed.

Lemma ofZ_toZ (b : byte) : ofZ (toZ b) = b.
Proof. destruct b; reflexivity. Qed.

Lemma toZ_ofZ (z : Z) : 0 <= z < 256 -> toZ (ofZ z) = z.
Proof.
  intros Hz. unfold ofZ, toZ. rewrite Z.mod_small by assumption.
  destruct (Byte.of_N (Z.to_N z)) as [b|] eqn:E.
  - apply Byte.to_of_N in E. rewrite E. lia.
  - apply Byte.of_N_None_iff in E. lia.
Qed.

Lemma xor_bits_involutive a k : xor_bits (xor_bits a k) k = a.
Proof.
  destruct a as (a0 & a1 & a2 & a3 & a4 & a5 & a6 & a7).
  destruct k as (k0 & k1 & k2 & k3 & k4 & k5 & k6 & k7).
  unfold xor_bits.
  repeat rewrite xorb_assoc. repeat rewrite xorb_nilpotent. repeat rewrite xorb_false_r.
  reflexivity.
Qed.

Lemma xor_byte_involutive (a k : byte) : xor_byte (xor_byte a k) k = a.
Proof.
  unfold xor_byte. rewrite Byte.to_bits_of_bits, xor_bits_involutive.
  apply Byte.of_bits_to_bits.
Qed.

Lemma xor_stream_involutive (stream data : list byte) :
  xor_stream (xor_stream data stream) stream = data.
Proof.
  revert stream. induction data as [|d ds IH]; intros [|k ks]; simpl; try reflexivity.
  now rewrite xor_byte_involutive, IH.
Qed.

Lemma xor_stream_length (stream data : list byte) :
  length (xor_stream data stream) = length data.
Proof.
  revert stream. induction data as [|d ds IH]; intros [|k ks]; simpl; auto.
Qed.

End BytesFacts.

Module BufferFacts.
Import Buffer.
Local Open Scope Z_scope.

Lemma from_hex_octet (x : byte) (s : string) :
  from_hex (String (hexdigit (Bytes.toZ x / 16)) (String (hexdigit (Bytes.toZ x mod 16)) s))
  = x :: from_hex s.
Proof. destruct x; reflexivity. Qed.

Lemma from_hex_toString_hex (buf : Buffer.t) : from_hex (toString_hex buf) = buf.
Proof.
  induction buf as [|x rest IH]; [reflexivity|].
  cbn [toString_hex]. rewrite from_hex_octet. now rewrite IH.
Qed.

Lemma lower_hex_digit (c : ascii) :
  lower_hex c = true -> exists h, hexval c = Some h /\ 0 <= h < 16 /\ hexdigit h = c.
Proof.
  destruct c as [b0 b1 b2 b3 b4 b5 b6 b7].
  destruct b0, b1, b2, b3, b4, b5, b6, b7; intros L; try discriminate L;
    (eexists; split; [vm_compute; reflexivity | split; [lia | reflexivity]]).
Qed.

Lemma toString_hex_pair (a b : ascii) (h l : Z) :
  0 <= h < 16 -> 0 <= l < 16 -> hexdigit h = a -> hexdigit l = b ->
  toString_hex [Bytes.ofZ (16 * h + l)] = String a (String b EmptyString).
Proof.
  intros Hh Hl <- <-. cbn [toString_hex].
  rewrite BytesFacts.toZ_ofZ by lia.
  replace ((16 * h + l) / 16) with h by (apply Z.div_unique with l; lia).
  replace ((16 * h + l) mod 16) with l by (apply Z.mod_unique with h; lia).
  reflexivity.
Qed.

Lemma toString_hex_cons (x : byte) (rest : Buffer.t) :
  toString_hex (x :: rest) = (toString_hex [x] ++ toString_hex rest)%string.
Proof. reflexivity. Qed.

Lemma toString_hex_from_hex_upto (n : nat) :
  forall s, (String.length s <= n)%nat -> is_hex s = true -> toString_hex (from_hex s) = s.
Proof.
  induction n as [|n IH]; intros s Hn Hs.
  - destruct s; [reflexivity | simpl in Hn; lia].
  - destruct s as [|a [|b rest]]; [reflexivity | discriminate Hs |].
    cbn [is_hex] in Hs. apply andb_true_iff in Hs as [Hab Hr].
    apply andb_true_iff in Hab as [Ha Hb].
    destruct (lower_hex_digit a Ha) as (h & Eh & Rh & Dh).
    destruct (lower_hex_digit b Hb) as (l & El & Rl & Dl).
    cbn [from_hex]. rewrite Eh, El, toString_hex_cons.
    rewrite (toString_hex_pair a b h l Rh Rl Dh Dl).
    rewrite IH; [reflexivity | simpl in Hn; lia | exact Hr].
Qed.

Lemma toString_hex_from_hex (s : string) :
  is_hex s = true -> toString_hex (from_hex s) = s.
Proof. apply (toString_hex_from_hex_upto (String.length s)). lia. Qed.

Lemma hexdigit_lower (z : Z) : 0 <= z < 16 -> lower_hex (hexdigit z) = true.
Proof.
  intros Hz.
  assert (C : z = 0 \/ z = 1 \/ z = 2 \/ z = 3 \/ z = 4 \/ z = 5 \/ z = 6 \/ z = 7 \/
              z = 8 \/ z = 9 \/ z = 10 \/ z = 11 \/ z = 12 \/ z = 13 \/ z = 14 \/ z = 15) by lia.
  repeat (destruct C as [-> | C]; [reflexivity|]). subst z. reflexivity.
Qed.

Lemma is_hex_toString_hex (buf : Buffer.t) : is_hex (toString_hex buf) = true.
Proof.
  induction buf as [|x rest IH]; [reflexivity|].
  cbn [toString_hex is_hex]. pose proof (BytesFacts.toZ_range x) as R.
  rewrite !hexdigit_lower, IH.
  - reflexivity.
  - apply Z.mod_pos_bound; lia.
  - split; [apply Z.div_pos; lia | apply Z.div_lt_upper_bound; lia].
Qed.

(** The strings [is_hex] accepts are exactly the hex encodings of octet sequences. *)
Lemma is_hex_iff (s : string) : is_hex s = true <-> exists buf, s = toString_hex buf.
Proof.
  split.
  - intros H. exists (from_hex s). symmetry. now apply toString_hex_from_hex.
  - intros [buf ->]. apply is_hex_toString_hex.
Qed.

Lemma toString_hex_length (buf : Buffer.t) :
  String.length (toString_hex buf) = (2 * length buf)%nat.
Proof. induction buf as [|x rest IH]; simpl; [reflexivity | rewrite IH; lia]. Qed.

Lemma slice_length (buf : Buffer.t) (a b : nat) :
  (b <= length buf)%nat -> length (slice buf a b) = (b - a)%nat.
Proof.
  intros H. unfold slice. rewrite length_firstn, length_skipn. lia.
Qed.

End BufferFacts.

(** ** The key derivation *)

Module KdfFacts.
Import Bytes.
Local Open Scope nat_scope.

Lemma xors_length (a b : list Z) : length (xors a b) = Nat.min (length a) (length b).
Proof. unfold xors. now rewrite length_map, length_combine. Qed.

Lemma to_le_length (n : nat) (x : Z) : length (to_le n x) = n.
Proof. revert x. induction n as [|n IH]; intros x; simpl; [reflexivity | now rewrite IH]. Qed.

Lemma to_be_length (n : nat) (x : Z) : length (to_be n x) = n.
Proof. unfold to_be. now rewrite length_rev, to_le_length. Qed.

Lemma flat_map_length_const {A B} (f : A -> list B) (k : nat) (l : list A) :
  (forall x, length (f x) = k) -> length (flat_map f l) = k * length l.
Proof.
  intros Hf. induction l as [|x l IH]; simpl; [lia|].
  rewrite length_app, Hf, IH. lia.
Qed.

Lemma round_length (s : list Z) (kw : Z * Z) : length (Sha256.round s kw) = length s.
Proof.
  unfold Sha256.round.
  destruct s as [|a [|b [|c [|d [|e [|f [|g [|h [|i s]]]]]]]]]; reflexivity.
Qed.

Lemma rounds_length (l : list (Z * Z)) (s : list Z) :
  length (fold_left Sha256.round l s) = length s.
Proof.
  revert s. induction l as [|kw l IH]; intros s; simpl; [reflexivity|].
  now rewrite IH, round_length.
Qed.

Lemma compress_length (h block : list Z) : length (Sha256.compress h block) = length h.
Proof.
  unfold Sha256.compress. rewrite length_map, length_combine, rounds_length. lia.
Qed.

Lemma state_length (msg : list Z) : length (Sha256.state msg) = 8.
Proof.
  unfold Sha256.state. generalize (chunk 64 (Sha256.pad msg)) as blocks.
  assert (G : forall blocks h, length (fold_left Sha256.compress blocks h) = length h).
  { induction blocks as [|b bs IH]; intros h; simpl; [reflexivity|].
    now rewrite IH, compress_length. }
  intros blocks. now rewrite G.
Qed.

Lemma digest_length (msg : list Z) : length (Sha256.digest msg) = 32.
Proof.
  unfold Sha256.digest.
  rewrite (flat_map_length_const _ 4) by (intros; apply to_be_length).
  now rewrite state_length.
Qed.

Lemma hmac_block_length (kb msg : list Z) : length (Hmac.hmac_block kb msg) = 32.
Proof. apply digest_length. Qed.

Lemma F_iter_length (kb : list Z) (c : nat) :
  forall u acc, length acc = 32 -> length (Pbkdf2.F_iter kb c u acc) = 32.
Proof.
  induction c as [|c IH]; intros u acc Hacc; simpl; [assumption|].
  apply IH. now rewrite xors_length, Hacc, hmac_block_length.
Qed.

Lemma F_length (kb salt : list Z) (c : nat) (i : Z) : length (Pbkdf2.F kb salt c i) = 32.
Proof. unfold Pbkdf2.F. apply F_iter_length, hmac_block_length. Qed.

Lemma pbkdf2_derive_length (kb salt : list Z) (c dkLen : nat) :
  length (Pbkdf2.derive kb salt c dkLen) = dkLen.
Proof.
  unfold Pbkdf2.derive. rewrite length_firstn.
  rewrite (flat_map_length_const _ 32) by (intros; apply F_length).
  rewrite length_seq.
  pose proof (Nat.div_mod_eq (dkLen + 31) 32) as E.
  pose proof (Nat.mod_upper_bound (dkLen + 31) 32) as U. lia.
Qed.

(** scrypt gives as many octets as it was asked for. *)
Lemma scrypt_length (password salt : Buffer.t) (N r p : Z) (dkLen : nat) :
  length (Scrypt.scrypt password salt N r p dkLen) = dkLen.
Proof.
  unfold Scrypt.scrypt, Scrypt.derive. now rewrite length_map, pbkdf2_derive_length.
Qed.

Lemma of_string_app (a b : string) :
  Buffer.of_string (a ++ b) = (Buffer.of_string a ++ Buffer.of_string b)%list.
Proof.
  unfold Buffer.of_string, list_byte_of_string.
  induction a as [|c a IH]; simpl; [reflexivity | now rewrite IH].
Qed.

Lemma of_string_length (a : string) : length (Buffer.of_string a) = String.length a.
Proof.
  unfold Buffer.of_string, list_byte_of_string.
  induction a as [|c a IH]; simpl; [reflexivity | now rewrite IH].
Qed.

(** RFC 2104 fills a short key up with zeros, so a key and the same key
    followed by a zero octet give the same key block. *)
Lemma key_block_trailing_zero (key : list Z) :
  length key < 64 -> Hmac.key_block (key ++ [0%Z]) = Hmac.key_block key.
Proof.
  intros Hlen. unfold Hmac.key_block.
  rewrite length_app. cbn [length].
  destruct (Nat.ltb_spec 64 (length key + 1)) as [L|L]; [lia|].
  destruct (Nat.ltb_spec 64 (length key)) as [L'|L']; [lia|].
  rewrite length_app. cbn [length].
  replace (64 - length key) with (S (64 - (length key + 1))) by lia.
  cbn [repeat]. now rewrite <- app_assoc.
Qed.

(** Hence scrypt cannot tell a password of fewer than 64 octets from the same
    password followed by U+0000. *)
Lemma scrypt_trailing_nul (password : string) (salt : Buffer.t) (N r p : Z) (dkLen : nat) :
  String.length password < 64 ->
  Scrypt.scrypt (Buffer.of_string (password ++ String "000" EmptyString)) salt N r p dkLen
  = Scrypt.scrypt (Buffer.of_string password) salt N r p dkLen.
Proof.
  intros Hlen. unfold Scrypt.scrypt.
  rewrite of_string_app, map_app.
  change (map toZ (Buffer.of_string (String "000" EmptyString))) with [0%Z].
  rewrite key_block_trailing_zero; [reflexivity|].
  now rewrite length_map, of_string_length.
Qed.

End KdfFacts.

(** ** [JSON.parse] *)

Module JsonFacts.
Import Json.
Local Open Scope string_scope.

Ltac split_match :=
  match goal with
  | |- context [match ?x with _ => _ end] => destruct x eqn:?
  | |- context [if ?b then _ else _] => destruct b eqn:?
  end.

Lemma elements_array (value0 : string -> option (jsval * string)) (fuel : nat) :
  forall s acc v rest, elements value0 fuel s acc = Some (v, rest) -> exists l, v = JArray l.
Proof.
  induction fuel as [|f IH]; intros s acc v rest; cbn [elements]; [discriminate|].
  repeat split_match; try discriminate.
  - apply IH.
  - intros [= <- _]. eauto.
Qed.

Lemma members_object (value0 : string -> option (jsval * string)) (fuel : nat) :
  forall s acc v rest, members value0 fuel s acc = Some (v, rest) -> exists ms, v = JObject ms.
Proof.
  induction fuel as [|f IH]; intros s acc v rest; cbn [members]; [discriminate|].
  repeat split_match; try discriminate.
  - apply IH.
  - intros [= <- _]. eauto.
Qed.

Lemma value_defined (fuel : nat) (s : string) (v : jsval) (rest : string) :
  value fuel s = Some (v, rest) -> v <> JUndefined.
Proof.
  destruct fuel as [|f]; cbn [value]; [discriminate|].
  destruct (skip_ws s) as [|c r]; [discriminate|].
  repeat match goal with
         | |- context [if Ascii.eqb c ?k then _ else _] => destruct (Ascii.eqb c k)
         end.
  - destruct (skip_ws r) as [|c' r'] eqn:E.
    + intros H. apply members_object in H as [ms ->]. discriminate.
    + destruct (Ascii.eqb c' "}") eqn:Ec.
      * apply Ascii.eqb_eq in Ec. subst c'. intros [= <- _]. discriminate.
      * intros H.
        assert (M : exists ms, v = JObject ms).
        { revert H. destruct c' as [[] [] [] [] [] [] [] []];
            try discriminate Ec; intros H; try (now injection H as <-; eauto);
            eapply members_object; exact H. }
        destruct M as [ms ->]. discriminate.
  - destruct (skip_ws r) as [|c' r'] eqn:E.
    + intros H. apply elements_array in H as [l ->]. discriminate.
    + destruct (Ascii.eqb c' "]") eqn:Ec.
      * apply Ascii.eqb_eq in Ec. subst c'. intros [= <- _]. discriminate.
      * intros H.
        assert (M : exists l, v = JArray l).
        { revert H. destruct c' as [[] [] [] [] [] [] [] []];
            try discriminate Ec; intros H; try (now injection H as <-; eauto);
            eapply elements_array; exact H. }
        destruct M as [l ->]. discriminate.
  - destruct (chars _ _ _) as [[k r']|]; [intros [= <- _]|]; discriminate.
  - destruct (expect _ _); cbn [option_map]; [intros [= <- _]|]; discriminate.
  - destruct (expect _ _); cbn [option_map]; [intros [= <- _]|]; discriminate.
  - destruct (expect _ _); cbn [option_map]; [intros [= <- _]|]; discriminate.
  - destruct (number _); cbn [option_map]; [intros [= <- _]|]; discriminate.
Qed.

(** [JSON.parse] never gives [undefined]. *)
Lemma parse_defined (text : string) : parse text <> Some JUndefined.
Proof.
  unfold parse. destruct (value _ _) as [[v rest]|] eqn:E; [|discriminate].
  apply value_defined in E. destruct (skip_ws rest); [congruence | discriminate].
Qed.

End JsonFacts.

(** ** The runtime *)

Module NodeFacts.
Import Node.
Local Open Scope string_scope.

Lemma bind_returned {A B} (m : M A) (k : A -> M B) (w w' : world) (a : A) :
  m w = (Returned a, w') -> bind m k w = k a w'.
Proof. intros E. unfold bind. now rewrite E. Qed.

Lemma bind_thrown {A B} (m : M A) (k : A -> M B) (w w' : world) (e : exn) :
  m w = (Thrown e, w') -> bind m k w = (Thrown e, w').
Proof. intros E. unfold bind. now rewrite E. Qed.

Lemma params_of_create : scrypt_params_ok 32 8192 8 1 = true.
Proof. vm_compute. reflexivity. Qed.

Lemma scryptSync_run (password : string) (salt : Buffer.t) (keylen N r p : Z) (w : world) :
  scryptSync password salt keylen N r p w =
  (if scrypt_params_ok keylen N r p
   then Returned (Scrypt.scrypt (Buffer.of_string password) salt N r p (Z.to_nat keylen))
   else Thrown (CryptoError "Invalid scrypt parameter"),
   note Call_scryptSync w).
Proof.
  unfold scryptSync, bind, log, ret, throw.
  destruct (scrypt_params_ok keylen N r p); reflexivity.
Qed.

Lemma cipheriv_aes `{OpenSSL} (enc : bool) (key iv : Buffer.t) (w : world) :
  length key = 16 -> length iv = 16 ->
  cipheriv enc "aes-128-ctr" key iv w = (Returned (AesCtr key iv), w).
Proof.
  intros Hk Hi. unfold cipheriv. cbn [String.eqb Ascii.eqb Bool.eqb].
  rewrite Hk, Hi. reflexivity.
Qed.

Lemma cipheriv_aes_bad_iv `{OpenSSL} (enc : bool) (key iv : Buffer.t) (w : world) :
  length key = 16 -> length iv <> 16 ->
  cipheriv enc "aes-128-ctr" key iv w = (Thrown (CryptoError "Invalid initialization vector"), w).
Proof.
  intros Hk Hi. unfold cipheriv. cbn [String.eqb Ascii.eqb Bool.eqb].
  rewrite Hk. apply Nat.eqb_neq in Hi. rewrite Hi. reflexivity.
Qed.

Lemma update_final_aes (key iv data : Buffer.t) (w : world) :
  update_final (AesCtr key iv) data w =
  (Returned (Aes.ctr key iv data), note Call_final (note Call_update w)).
Proof. unfold update_final, bind, log, ret. now rewrite app_nil_r. Qed.

Lemma ctr_length (key iv data : Buffer.t) : length (Aes.ctr key iv data) = length data.
Proof. apply BytesFacts.xor_stream_length. Qed.

Lemma ctr_involutive (key iv data : Buffer.t) :
  Aes.ctr key iv (Aes.ctr key iv data) = data.
Proof.
  unfold Aes.ctr at 1. rewrite ctr_length. unfold Aes.ctr.
  apply BytesFacts.xor_stream_involutive.
Qed.

Lemma cipheriv_not_app `{OpenSSL} enc algorithm key iv w e w' :
  cipheriv enc algorithm key iv w = (Thrown e, w') -> exists m, e = CryptoError m.
Proof.
  unfold cipheriv.
  destruct (String.eqb algorithm "aes-128-ctr").
  - destruct (negb (length key =? 16)%nat); [intros [= <- _]; eauto|].
    destruct (negb (length iv =? 16)%nat); [intros [= <- _]; eauto | discriminate].
  - destruct (other_cipher algorithm key iv); [discriminate | intros [= <- _]; eauto].
Qed.

Lemma update_final_not_app c data w e w' :
  update_final c data w = (Thrown e, w') -> exists m, e = CryptoError m.
Proof.
  unfold update_final, bind, log, ret, throw.
  destruct c as [key iv | f]; [discriminate|].
  destruct (f data); [discriminate | intros [= <- _]; eauto].
Qed.

End NodeFacts.

(** ** The methods of the class, step by step *)

Module KeystoreFacts.
Import Node NodeFacts Keystore.
Local Open Scope string_scope.

Lemma createCipheriv_aes `{OpenSSL} (key iv : Buffer.t) (w : world) :
  length key = 16 -> length iv = 16 ->
  createCipheriv CIPHER key iv w = (Returned (AesCtr key iv), note Call_createCipheriv w).
Proof.
  intros Hk Hi. unfold createCipheriv, CIPHER, bind, log.
  now rewrite cipheriv_aes.
Qed.

Lemma createDecipheriv_aes `{OpenSSL} (key iv : Buffer.t) (w : world) :
  length key = 16 -> length iv = 16 ->
  createDecipheriv CIPHER key iv w = (Returned (AesCtr key iv), note Call_createDecipheriv w).
Proof.
  intros Hk Hi. unfold createDecipheriv, CIPHER, bind, log.
  now rewrite cipheriv_aes.
Qed.

Lemma Keccak_digest_hex_run (data : Buffer.t) (w : world) :
  Keccak_digest_hex data w = (Returned (keccak256_hex data), note Call_Keccak_digest w).
Proof. reflexivity. Qed.

Lemma uuid_run (w : world) :
  uuid w = (Returned (uuid_format (next_octets 16 w)), advance 16 (note Call_uuid w)).
Proof. reflexivity. Qed.

Lemma pick_salt (o : Options.t) (w : world) :
  match Options.salt o with
  | Some b => ret b
  | None => randomBytes 32
  end w = (Returned (salt_of o w), after_salt o w).
Proof. unfold salt_of, after_salt. destruct (Options.salt o); reflexivity. Qed.

Lemma pick_iv (o : Options.t) (w : world) :
  match Options.iv o with
  | Some b => ret b
  | None => randomBytes 16
  end (after_salt o w) = (Returned (iv_of o w), after_iv o w).
Proof. unfold iv_of, after_iv. destruct (Options.iv o); reflexivity. Qed.

Lemma iv_of_length (o : Options.t) (w : world) : iv_fits o -> length (iv_of o w) = 16.
Proof.
  unfold iv_fits, iv_of. destruct (Options.iv o); [trivial|].
  intros _. unfold next_octets. now rewrite length_map, length_seq.
Qed.

Lemma key_slice_length (password salt : Buffer.t) (N r p : Z) (dkLen : nat) :
  16 <= dkLen -> length (Buffer.slice (Scrypt.scrypt password salt N r p dkLen) 0 16) = 16.
Proof.
  intros H. unfold Buffer.slice. rewrite length_firstn, length_skipn, KdfFacts.scrypt_length. lia.
Qed.

Lemma create_run `{OpenSSL} (S : ExtendedPrivateKey.t) (P : string) (o : Options.t) (w : world) :
  iv_fits o ->
  exists id w',
    create S P o w =
    (Returned (new (sealed P (salt_of o w) (iv_of o w) (ExtendedPrivateKey.serialize S)) id), w').
Proof.
  intros Hiv. unfold create.
  rewrite (bind_returned _ _ _ _ _ (pick_salt o w)).
  rewrite (bind_returned _ _ _ _ _ (pick_iv o w)).
  cbv zeta. cbn [KdfParams.dklen KdfParams.n KdfParams.r KdfParams.p].
  pose proof (scryptSync_run P (salt_of o w) 32 8192 8 1 (after_iv o w)) as Ek.
  rewrite params_of_create in Ek. change (Z.to_nat 32) with 32%nat in Ek.
  rewrite (bind_returned _ _ _ _ _ Ek). clear Ek.
  rewrite (bind_returned _ _ _ _ _
             (createCipheriv_aes _ _ _ (key_slice_length _ _ _ _ _ 32 ltac:(lia))
                                 (iv_of_length o w Hiv))).
  unfold not_object.
  rewrite (bind_returned _ _ _ _ _ (update_final_aes _ _ _ _)).
  rewrite (bind_returned _ _ _ _ _ (Keccak_digest_hex_run _ _)).
  rewrite (bind_returned _ _ _ _ _ (uuid_run _)).
  eexists. eexists. reflexivity.
Qed.

Lemma derivedKey_run (ks : Keystore.t) (P : string) (w : world) :
  derivedKey ks P w =
  (let kp := Crypto.kdfparams (crypto ks) in
   if scrypt_params_ok (KdfParams.dklen kp) (KdfParams.n kp) (KdfParams.r kp) (KdfParams.p kp)
   then Returned (Scrypt.scrypt (Buffer.of_string P) (Buffer.from_hex (KdfParams.salt kp))
                    (KdfParams.n kp) (KdfParams.r kp) (KdfParams.p kp)
                    (Z.to_nat (KdfParams.dklen kp)))
   else Thrown (CryptoError "Invalid scrypt parameter"),
   note Call_scryptSync w).
Proof. unfold derivedKey. apply scryptSync_run. Qed.

Lemma derivedKey_world (ks : Keystore.t) (P : string) (w : world) :
  snd (derivedKey ks P w) = note Call_scryptSync w.
Proof. now rewrite derivedKey_run. Qed.

Lemma derivedKey_throws (ks : Keystore.t) (P : string) (w : world) (e : exn) :
  fst (derivedKey ks P w) = Thrown e -> e = CryptoError "Invalid scrypt parameter".
Proof.
  rewrite derivedKey_run. cbv zeta. cbn [fst].
  destruct (scrypt_params_ok _ _ _ _); [discriminate | now intros [= <-]].
Qed.

Lemma decrypt_cases `{OpenSSL} (ks : Keystore.t) (P : string) (w : world) :
  match fst (derivedKey ks P w) with
  | Thrown e => decrypt ks P w = (Thrown e, note Call_scryptSync w)
  | Returned dk =>
      if String.eqb (recomputed_mac ks dk) (Crypto.mac (crypto ks))
      then decrypt ks P w =
           decipher_steps ks dk (note Call_Keccak_digest (note Call_scryptSync w))
      else decrypt ks P w =
           (Thrown IncorrectPassword, note Call_Keccak_digest (note Call_scryptSync w))
  end.
Proof.
  unfold decrypt, recomputed_mac, decipher_steps.
  destruct (derivedKey ks P w) as [[dk|e] w1] eqn:E; cbn [fst].
  - assert (W : w1 = note Call_scryptSync w).
    { pose proof (derivedKey_world ks P w) as W. now rewrite E in W. }
    subst w1.
    rewrite (bind_returned _ _ _ _ _ E).
    unfold mac. rewrite (bind_returned _ _ _ _ _ (Keccak_digest_hex_run _ _)).
    destruct (String.eqb _ _); reflexivity.
  - assert (W : w1 = note Call_scryptSync w).
    { pose proof (derivedKey_world ks P w) as W. now rewrite E in W. }
    subst w1. now rewrite (bind_thrown _ _ _ _ _ E).
Qed.

Lemma checkPassword_cases (ks : Keystore.t) (P : string) (w : world) :
  match fst (derivedKey ks P w) with
  | Thrown e => checkPassword ks P w = (Thrown e, note Call_scryptSync w)
  | Returned dk =>
      checkPassword ks P w =
      (Returned (String.eqb (recomputed_mac ks dk) (Crypto.mac (crypto ks))),
       note Call_Keccak_digest (note Call_scryptSync w))
  end.
Proof.
  unfold checkPassword, recomputed_mac.
  destruct (derivedKey ks P w) as [[dk|e] w1] eqn:E; cbn [fst].
  - assert (W : w1 = note Call_scryptSync w).
    { pose proof (derivedKey_world ks P w) as W. now rewrite E in W. }
    subst w1.
    rewrite (bind_returned _ _ _ _ _ E).
    unfold mac. now rewrite (bind_returned _ _ _ _ _ (Keccak_digest_hex_run _ _)).
  - assert (W : w1 = note Call_scryptSync w).
    { pose proof (derivedKey_world ks P w) as W. now rewrite E in W. }
    subst w1. now rewrite (bind_thrown _ _ _ _ _ E).
Qed.

Lemma decipher_steps_throws `{OpenSSL} (ks : Keystore.t) (dk : Buffer.t) (w : world) (e : exn) :
  fst (decipher_steps ks dk w) = Thrown e -> exists m, e = CryptoError m.
Proof.
  unfold decipher_steps, createDecipheriv.
  unfold bind at 1. unfold bind at 1. unfold log at 1.
  destruct (cipheriv _ _ _ _ _) as [[d|e1] w1] eqn:E1.
  - unfold bind.
    destruct (update_final _ _ _) as [[pl|e2] w2] eqn:E2; cbn [fst].
    + discriminate.
    + intros [= <-]. eapply update_final_not_app; eassumption.
  - cbn [fst]. intros [= <-]. eapply cipheriv_not_app; eassumption.
Qed.

Lemma decipher_steps_aes `{OpenSSL} (ks : Keystore.t) (dk : Buffer.t) (w : world) :
  Crypto.cipher (crypto ks) = CIPHER ->
  length (Buffer.slice dk 0 16) = 16 ->
  length (Buffer.from_hex (CipherParams.iv (Crypto.cipherparams (crypto ks)))) = 16 ->
  decipher_steps ks dk w =
  (Returned (Buffer.toString_hex
               (Aes.ctr (Buffer.slice dk 0 16)
                  (Buffer.from_hex (CipherParams.iv (Crypto.cipherparams (crypto ks))))
                  (Buffer.from_hex (Crypto.ciphertext (crypto ks))))),
   note Call_final (note Call_update (note Call_createDecipheriv w))).
Proof.
  intros Hc Hk Hi. unfold decipher_steps. rewrite Hc.
  rewrite (bind_returned _ _ _ _ _ (createDecipheriv_aes _ _ _ Hk Hi)).
  now rewrite (bind_returned _ _ _ _ _ (update_final_aes _ _ _ _)).
Qed.

Lemma decrypt_sealed `{OpenSSL} (P' P : string) (salt iv : Buffer.t) (secret id : string)
    (w : world) :
  length iv = 16 ->
  Scrypt.scrypt (Buffer.of_string P') salt 8192 8 1 32
  = Scrypt.scrypt (Buffer.of_string P) salt 8192 8 1 32 ->
  fst (decrypt (new (sealed P salt iv secret) id) P' w)
  = Returned (Buffer.toString_hex (Buffer.from_hex secret)).
Proof.
  intros Hiv Hdk.
  set (dk := Scrypt.scrypt (Buffer.of_string P) salt 8192 8 1 32) in *.
  set (ct := Aes.ctr (Buffer.slice dk 0 16) iv (Buffer.from_hex secret)).
  set (ks := new (sealed P salt iv secret) id).
  assert (Ekp : Crypto.kdfparams (crypto ks) =
                {| KdfParams.dklen := 32; KdfParams.n := 8192; KdfParams.r := 8;
                   KdfParams.p := 1; KdfParams.salt := Buffer.toString_hex salt |})
    by reflexivity.
  assert (Ect : Crypto.ciphertext (crypto ks) = Buffer.toString_hex ct) by reflexivity.
  assert (Emac : Crypto.mac (crypto ks) = keccak256_hex (Buffer.slice dk 16 32 ++ ct)%list)
    by reflexivity.
  assert (Eiv : CipherParams.iv (Crypto.cipherparams (crypto ks)) = Buffer.toString_hex iv)
    by reflexivity.
  assert (Ecipher : Crypto.cipher (crypto ks) = CIPHER) by reflexivity.
  pose proof (decrypt_cases ks P' w) as C.
  rewrite derivedKey_run, Ekp in C. cbv zeta in C.
  cbn [KdfParams.dklen KdfParams.n KdfParams.r KdfParams.p KdfParams.salt fst] in C.
  rewrite params_of_create, BufferFacts.from_hex_toString_hex in C.
  change (Z.to_nat 32) with 32%nat in C. rewrite Hdk in C.
  unfold recomputed_mac in C.
  rewrite Ect, Emac, BufferFacts.from_hex_toString_hex, String.eqb_refl in C.
  rewrite C, decipher_steps_aes.
  - cbn [fst]. rewrite Eiv, Ect, !BufferFacts.from_hex_toString_hex.
    unfold ct. now rewrite ctr_involutive.
  - exact Ecipher.
  - apply key_slice_length. lia.
  - now rewrite Eiv, BufferFacts.from_hex_toString_hex.
Qed.

Lemma fromJson_run (json : string) (w : world) :
  fromJson json w =
  (match Json.parse json with
   | None | Some JUndefined | Some JNull => Thrown InvalidKeystore
   | Some (JObject ms) =>
       Returned (new (last_member "crypto" ms JUndefined) (last_member "id" ms JUndefined))
   | Some _ => Returned (new JUndefined JUndefined)
   end, w).
Proof.
  unfold fromJson, try_catch, bind, JSON_parse.
  destruct (Json.parse json) as [[| |b|l|s|items|ms]|]; reflexivity.
Qed.

Lemma demo_opens :
  fst (@decrypt only_aes demo "correct horse" quiet) = Returned zeros.
Proof. vm_compute. reflexivity. Qed.

Lemma demo_rejects :
  @decrypt only_aes demo "wrong horse" quiet
  = (Thrown IncorrectPassword, mkWorld (fun _ => x00) 0 [Call_scryptSync; Call_Keccak_digest]).
Proof. vm_compute. reflexivity. Qed.

Lemma derivedKey_returns (ks : Keystore.t) (P : string) (w : world) (dk : Buffer.t) :
  fst (derivedKey ks P w) = Returned dk ->
  length dk = Z.to_nat (KdfParams.dklen (Crypto.kdfparams (crypto ks))).
Proof.
  rewrite derivedKey_run. cbv zeta. cbn [fst].
  destruct (scrypt_params_ok _ _ _ _); [|discriminate].
  intros [= <-]. apply KdfFacts.scrypt_length.
Qed.

Lemma calls_after_mac (w : world) :
  calls (note Call_Keccak_digest (note Call_scryptSync w))
  = (calls w ++ [Call_scryptSync; Call_Keccak_digest])%list.
Proof. cbn [note calls]. now rewrite <- app_assoc. Qed.

Lemma iv_fits_dec (o : Options.t) (w : world) : {iv_fits o} + {length (iv_of o w) <> 16}.
Proof.
  unfold iv_fits, iv_of. destruct (Options.iv o) as [b|]; [|now left].
  destruct (Nat.eq_dec (length b) 16); [now left | now right].
Qed.

Lemma createCipheriv_aes_bad_iv `{OpenSSL} (key iv : Buffer.t) (w : world) :
  length key = 16 -> length iv <> 16 ->
  createCipheriv CIPHER key iv w
  = (Thrown (CryptoError "Invalid initialization vector"), note Call_createCipheriv w).
Proof.
  intros Hk Hi. unfold createCipheriv, CIPHER, bind, log.
  now rewrite cipheriv_aes_bad_iv.
Qed.

Lemma create_bad_iv `{OpenSSL} (S : ExtendedPrivateKey.t) (P : string) (o : Options.t)
    (w : world) :
  length (iv_of o w) <> 16 ->
  exists w', create S P o w = (Thrown (CryptoError "Invalid initialization vector"), w').
Proof.
  intros Hiv. unfold create.
  rewrite (bind_returned _ _ _ _ _ (pick_salt o w)).
  rewrite (bind_returned _ _ _ _ _ (pick_iv o w)).
  cbv zeta. cbn [KdfParams.dklen KdfParams.n KdfParams.r KdfParams.p].
  pose proof (scryptSync_run P (salt_of o w) 32 8192 8 1 (after_iv o w)) as Ek.
  rewrite params_of_create in Ek. change (Z.to_nat 32) with 32%nat in Ek.
  rewrite (bind_returned _ _ _ _ _ Ek). clear Ek.
  rewrite (bind_thrown _ _ _ _ _
             (createCipheriv_aes_bad_iv _ _ _ (key_slice_length _ _ _ _ _ 32 ltac:(lia)) Hiv)).
  eexists. reflexivity.
Qed.

Lemma slice_agree (dk1 dk2 : Buffer.t) (a b : nat) :
  (forall i, a <= i < b -> nth_error dk1 i = nth_error dk2 i) ->
  Buffer.slice dk1 a b = Buffer.slice dk2 a b.
Proof.
  intros Hagree. unfold Buffer.slice. apply nth_error_ext. intros i.
  destruct (Nat.lt_ge_cases i (b - a)) as [Hi|Hi].
  - rewrite !nth_error_firstn.
    destruct (Nat.ltb_spec i (b - a)); [|lia].
    rewrite !nth_error_skipn. apply Hagree. lia.
  - rewrite !nth_error_firstn.
    destruct (Nat.ltb_spec i (b - a)); [lia | reflexivity].
Qed.

End KeystoreFacts.

(** ** The properties of the specification *)

Module KeystoreSpec.
Import Node NodeFacts Keystore KeystoreFacts.
Local Open Scope string_scope.

(** C1 as stated fails: hex digits of either case are decoded, and the
    plaintext is written back in lower case, so a secret serialized in upper
    case does not come back as it was. *)
Lemma upper_case_secret_comes_back_lower :
  exists ks w',
    @create only_aes secret_upper "" fixed quiet = (Returned ks, w') /\
    fst (@decrypt only_aes ks "" w') = Returned "ab" /\
    ExtendedPrivateKey.serialize secret_upper = "AB".
Proof.
  destruct (@create_run only_aes secret_upper "" fixed quiet) as (id & w' & E);
    [reflexivity|].
  eexists. exists w'. split; [exact E|].
  split; [|reflexivity].
  rewrite decrypt_sealed; reflexivity.
Qed.

(** C1, amended. Round trip: for a secret whose [serialize()] is the
    lower-case hex encoding of an octet sequence, any password (the empty one
    included), any salt and any 16-octet iv (supplied or drawn), [create]
    returns a keystore, and [decrypt] on it with the same password returns
    [serialize()] exactly. *)
Theorem create_decrypt_roundtrip `{OpenSSL} (S : ExtendedPrivateKey.t) (P : string)
    (options : Options.t) (w : world) :
  Buffer.is_hex (ExtendedPrivateKey.serialize S) = true ->
  iv_fits options ->
  exists ks w',
    create S P options w = (Returned ks, w') /\
    forall w2, fst (decrypt ks P w2) = Returned (ExtendedPrivateKey.serialize S).
Proof.
  intros Hhex Hiv.
  destruct (create_run S P options w Hiv) as (id & w' & E).
  eexists. exists w'. split; [exact E|].
  intros w2. rewrite decrypt_sealed.
  - now rewrite BufferFacts.toString_hex_from_hex.
  - now apply iv_of_length.
  - reflexivity.
Qed.

Lemma create_decrypt_roundtrip_witness :
  exists ks w',
    @create only_aes secret0 "" fixed quiet = (Returned ks, w') /\
    forall w2, fst (@decrypt only_aes ks "" w2) = Returned (ExtendedPrivateKey.serialize secret0).
Proof.
  apply (@create_decrypt_roundtrip only_aes secret0 "" fixed quiet).
  - reflexivity.
  - reflexivity.
Defined.




(** C3 as stated fails: the empty object has none of the envelope fields, and
    [fromJson] returns a keystore for it. *)
Lemma fromJson_accepts_empty_object :
  fst (fromJson "{}" quiet) = Returned (new JUndefined JUndefined).
Proof. reflexivity. Qed.

(** C3, amended. [fromJson] raises [InvalidKeystore] exactly when the text is
    not well-formed JSON or is the JSON text [null]; in particular it does for
    ["{not json"].  An object is accepted whatever members it has: [crypto] and
    [id] are taken as they are, [undefined] when missing, as for ["{}"]. *)
Theorem fromJson_InvalidKeystore_iff (json : string) (w : world) :
  (fst (fromJson json w) = Thrown InvalidKeystore <->
   Json.parse json = None \/ Json.parse json = Some JNull) /\
  (forall e, fst (fromJson json w) = Thrown e -> e = InvalidKeystore) /\
  (forall ms, Json.parse json = Some (JObject ms) ->
     fromJson json w =
     (Returned (new (last_member "crypto" ms JUndefined) (last_member "id" ms JUndefined)), w)) /\
  fst (fromJson "{not json" w) = Thrown InvalidKeystore /\
  fst (fromJson "{}" w) = Returned (new JUndefined JUndefined).
Proof.
  split; [split|split; [|split; [|split]]].
  - rewrite fromJson_run. cbn [fst].
    assert (U : Json.parse json <> Some JUndefined) by apply JsonFacts.parse_defined.
    destruct (Json.parse json) as [[| |b|l|s|items|ms]|]; intros E;
      solve [discriminate E | congruence | now left | now right].
  - rewrite fromJson_run. cbn [fst]. intros [E|E]; now rewrite E.
  - intros e. rewrite fromJson_run. cbn [fst].
    destruct (Json.parse json) as [[| |b|l|s|items|ms]|]; intros E;
      solve [discriminate E | now injection E].
  - intros ms E. rewrite fromJson_run. now rewrite E.
  - reflexivity.
  - reflexivity.
Qed.

Lemma fromJson_InvalidKeystore_iff_witness :
  fst (fromJson "{not json" quiet) = Thrown InvalidKeystore.
Proof.
  apply (proj2 (proj1 (fromJson_InvalidKeystore_iff "{not json" quiet))).
  left. reflexivity.
Defined.

(** C4 as stated fails: the MAC covers neither the cipher name nor the iv, so a
    keystore whose iv was cut to two octets still passes [checkPassword], and
    [decrypt] raises when it sets up the decipher. *)
Lemma checkPassword_true_decrypt_raises :
  fst (checkPassword demo_short_iv "correct horse" quiet) = Returned true /\
  fst (@decrypt only_aes demo_short_iv "correct horse" quiet)
  = Thrown (CryptoError "Invalid initialization vector").
Proof. split; vm_compute; reflexivity. Qed.

(** C4, amended. For a keystore whose cipher is aes-128-ctr with an iv of 16
    octets and a derived key of at least 16, [checkPassword] returns [true]
    exactly when [decrypt] returns.  For every keystore: if [decrypt] returns
    then [checkPassword] returns [true]; [checkPassword] never raises
    [IncorrectPassword]; and it asks the libraries for the key and the digest
    only, never for a decipher. *)
Theorem checkPassword_agrees_with_decrypt `{OpenSSL} (ks : Keystore.t) (P : string) (w : world) :
  (Crypto.cipher (crypto ks) = CIPHER ->
   length (Buffer.from_hex (CipherParams.iv (Crypto.cipherparams (crypto ks)))) = 16 ->
   (16 <= KdfParams.dklen (Crypto.kdfparams (crypto ks)))%Z ->
   (fst (checkPassword ks P w) = Returned true <->
    exists s, fst (decrypt ks P w) = Returned s)) /\
  ((exists s, fst (decrypt ks P w) = Returned s) -> fst (checkPassword ks P w) = Returned true) /\
  fst (checkPassword ks P w) <> Thrown IncorrectPassword /\
  (forall c, In c (calls (snd (checkPassword ks P w))) ->
             In c (calls w) \/ c = Call_scryptSync \/ c = Call_Keccak_digest).
Proof.
  pose proof (decrypt_cases ks P w) as D.
  pose proof (checkPassword_cases ks P w) as C.
  pose proof (derivedKey_returns ks P w) as L.
  pose proof (derivedKey_throws ks P w) as T.
  destruct (fst (derivedKey ks P w)) as [dk|e].
  - specialize (L dk eq_refl). rewrite C. cbn [fst snd].
    destruct (String.eqb (recomputed_mac ks dk) (Crypto.mac (crypto ks))).
    + rewrite D. repeat split.
      * intros _. rewrite decipher_steps_aes; [eexists; reflexivity | assumption | | assumption].
        unfold Buffer.slice. rewrite length_firstn, length_skipn. lia.
      * discriminate.
      * intros c. rewrite calls_after_mac, in_app_iff. cbn [In]. intuition auto.
    + rewrite D. cbn [fst]. repeat split.
      * discriminate.
      * intros [s E]. discriminate E.
      * intros [s E]. discriminate E.
      * discriminate.
      * intros c. rewrite calls_after_mac, in_app_iff. cbn [In]. intuition auto.
  - specialize (T e eq_refl). subst e. rewrite C, D. cbn [fst snd]. repeat split.
    + discriminate.
    + intros [s E]. discriminate E.
    + intros [s E]. discriminate E.
    + discriminate.
    + intros c. cbn [note calls]. rewrite in_app_iff. cbn [In]. intuition auto.
Qed.

Lemma checkPassword_agrees_with_decrypt_witness :
  fst (checkPassword demo "correct horse" quiet) = Returned true <->
  exists s, fst (@decrypt only_aes demo "correct horse" quiet) = Returned s.
Proof.
  apply (proj1 (@checkPassword_agrees_with_decrypt only_aes demo "correct horse" quiet)).
  - reflexivity.
  - reflexivity.
  - simpl. lia.
Defined.

(** C5. [decrypt] raises [IncorrectPassword] exactly when the key derivation
    returned a key and the MAC recomputed over its octets 16 to 31 followed by
    the stored ciphertext differs from the stored one; and then the library
    calls it made are the key derivation and the digest, in this order, and
    nothing else: no decipher was set up and nothing was deciphered. *)
Theorem decrypt_IncorrectPassword_iff `{OpenSSL} (ks : Keystore.t) (P : string) (w : world) :
  (fst (decrypt ks P w) = Thrown IncorrectPassword <->
   exists dk, fst (derivedKey ks P w) = Returned dk /\
              recomputed_mac ks dk <> Crypto.mac (crypto ks)) /\
  (fst (decrypt ks P w) = Thrown IncorrectPassword ->
   calls (snd (decrypt ks P w)) = (calls w ++ [Call_scryptSync; Call_Keccak_digest])%list).
Proof.
  pose proof (decrypt_cases ks P w) as D.
  pose proof (derivedKey_throws ks P w) as T.
  destruct (fst (derivedKey ks P w)) as [dk|e].
  - destruct (String.eqb (recomputed_mac ks dk) (Crypto.mac (crypto ks))) eqn:Em.
    + rewrite D. apply String.eqb_eq in Em. repeat split.
      * intros E. apply decipher_steps_throws in E as [m E]. discriminate E.
      * intros (dk' & [= <-] & Hne). contradiction.
      * intros E. apply decipher_steps_throws in E as [m E]. discriminate E.
    + rewrite D. apply String.eqb_neq in Em. cbn [fst snd]. repeat split.
      * intros _. exists dk. now split.
      * intros _. apply calls_after_mac.
  - specialize (T e eq_refl). subst e. rewrite D. cbn [fst snd]. repeat split.
    + discriminate.
    + intros (dk & E & _). discriminate E.
    + discriminate.
Qed.

Lemma decrypt_IncorrectPassword_iff_witness :
  calls (snd (@decrypt only_aes demo "wrong horse" quiet))
  = [Call_scryptSync; Call_Keccak_digest].
Proof.
  apply (proj2 (@decrypt_IncorrectPassword_iff only_aes demo "wrong horse" quiet)).
  vm_compute. reflexivity.
Defined.

(** C6. With the salt and the iv given, the outcome of [create] is the same in
    every state of the random source, up to the id: the same envelope, and in
    particular the same ciphertext and the same mac (or the same exception). *)
Theorem create_deterministic `{OpenSSL} (S : ExtendedPrivateKey.t) (P : string)
    (salt iv : Buffer.t) (w1 w2 : world) :
  let options := {| Options.salt := Some salt; Options.iv := Some iv |} in
  cmap (fun ks => Crypto.ciphertext (crypto ks)) (fst (create S P options w1))
  = cmap (fun ks => Crypto.ciphertext (crypto ks)) (fst (create S P options w2)) /\
  cmap (fun ks => Crypto.mac (crypto ks)) (fst (create S P options w1))
  = cmap (fun ks => Crypto.mac (crypto ks)) (fst (create S P options w2)) /\
  cmap crypto (fst (create S P options w1)) = cmap crypto (fst (create S P options w2)).
Proof.
  intros options.
  destruct (iv_fits_dec options w1) as [Hiv|Hiv].
  - destruct (create_run S P options w1 Hiv) as (id1 & w1' & E1).
    destruct (create_run S P options w2 Hiv) as (id2 & w2' & E2).
    rewrite E1, E2. repeat split.
  - destruct (create_bad_iv S P options w1 Hiv) as (w1' & E1).
    destruct (create_bad_iv S P options w2 Hiv) as (w2' & E2).
    rewrite E1, E2. repeat split.
Qed.

(** C7. The mac is a function of octets 16 to 31 of the derived key and of the
    ciphertext only: two derived keys (of 32 octets, or of any length) that
    agree there give the same mac for the same ciphertext, whatever their
    first sixteen octets and in whatever state it is computed. *)
Theorem mac_ignores_cipher_key (dk1 dk2 ciphertext : Buffer.t) (w1 w2 : world) :
  (forall i, 16 <= i < 32 -> nth_error dk1 i = nth_error dk2 i) ->
  fst (mac dk1 ciphertext w1) = fst (mac dk2 ciphertext w2).
Proof.
  intros Hagree. unfold mac. rewrite !Keccak_digest_hex_run. cbn [fst].
  now rewrite (slice_agree dk1 dk2 16 32 Hagree).
Qed.

Lemma mac_ignores_cipher_key_witness :
  fst (mac (repeat x00 16 ++ repeat x5a 16)%list [x01; x02; x03] quiet)
  = fst (mac (repeat xff 16 ++ repeat x5a 16)%list [x01; x02; x03] quiet).
Proof.
  apply mac_ignores_cipher_key.
  intros i Hi. do 32 (destruct i as [|i]; [first [lia | reflexivity]|]). lia.
Defined.

(** C8. Every keystore [create] returns has version 3, cipher aes-128-ctr, kdf
    scrypt, the kdf parameters dklen 32, n 8192, r 8, p 1 with the salt in
    hex, and as iv the hex of the 16 octets used, whatever secret and
    password it was given. *)
Theorem create_format_constants `{OpenSSL} (S : ExtendedPrivateKey.t) (P : string)
    (options : Options.t) (w w' : world) (ks : Keystore.t) :
  create S P options w = (Returned ks, w') ->
  version ks = 3%Z /\
  Crypto.cipher (crypto ks) = "aes-128-ctr" /\
  Crypto.kdf (crypto ks) = "scrypt" /\
  Crypto.kdfparams (crypto ks) =
    {| KdfParams.dklen := 32; KdfParams.n := 8192; KdfParams.r := 8; KdfParams.p := 1;
       KdfParams.salt := Buffer.toString_hex (salt_of options w) |} /\
  CipherParams.iv (Crypto.cipherparams (crypto ks)) = Buffer.toString_hex (iv_of options w) /\
  length (iv_of options w) = 16.
Proof.
  intros E.
  destruct (iv_fits_dec options w) as [Hiv|Hiv].
  - destruct (create_run S P options w Hiv) as (id & w1 & E1).
    rewrite E1 in E. injection E as <- _.
    repeat split. now apply iv_of_length.
  - destruct (create_bad_iv S P options w Hiv) as (w1 & E1).
    rewrite E1 in E. discriminate E.
Qed.

Lemma create_format_constants_witness :
  exists ks w',
    @create only_aes secret0 "correct horse" fixed quiet = (Returned ks, w') /\
    version ks = 3%Z /\
    Crypto.cipher (crypto ks) = "aes-128-ctr" /\
    Crypto.kdf (crypto ks) = "scrypt" /\
    Crypto.kdfparams (crypto ks) =
      {| KdfParams.dklen := 32; KdfParams.n := 8192; KdfParams.r := 8; KdfParams.p := 1;
         KdfParams.salt := Buffer.toString_hex (salt_of fixed quiet) |} /\
    CipherParams.iv (Crypto.cipherparams (crypto ks)) = Buffer.toString_hex (iv_of fixed quiet) /\
    length (iv_of fixed quiet) = 16.
Proof.
  destruct (@create_run only_aes secret0 "correct horse" fixed quiet) as (id & w' & E);
    [reflexivity|].
  eexists. exists w'. split; [exact E|].
  exact (@create_format_constants only_aes secret0 "correct horse" fixed quiet w' _ E).
Defined.

(** C9. A keystore that [fromJson] returns has version 3; a text that parses
    to an object is accepted whatever its members, and the result is made of
    its [crypto] and [id] members alone, so a [version] member changes
    nothing. *)
Theorem fromJson_version_3 (json : string) (w : world) :
  (forall ks w', fromJson json w = (Returned ks, w') -> version ks = 3%Z) /\
  (forall ms, Json.parse json = Some (JObject ms) ->
     exists ks, fromJson json w = (Returned ks, w) /\ version ks = 3%Z /\
                crypto ks = last_member "crypto" ms JUndefined /\
                id ks = last_member "id" ms JUndefined).
Proof.
  split.
  - intros ks w'. rewrite fromJson_run.
    destruct (Json.parse json) as [[| |b|l|s|items|ms]|]; intros E;
      solve [discriminate E | now injection E as <- _].
  - intros ms E. rewrite fromJson_run, E. eexists. repeat split.
Qed.

Lemma fromJson_version_3_witness :
  exists ks,
    fromJson (Json.dq "{'version': 1, 'id': 'a', 'crypto': {}}") quiet = (Returned ks, quiet) /\
    version ks = 3%Z /\
    crypto ks = JObject [] /\
    id ks = JString "a".
Proof.
  exact (proj2 (fromJson_version_3 (Json.dq "{'version': 1, 'id': 'a', 'crypto': {}}") quiet)
           [("version", JNumber "1"); ("id", JString "a"); ("crypto", JObject [])] eq_refl).
Defined.


End KeystoreSpec.

(** ** The envelope, field by field *)

Module EnvelopeFacts.
Import Node NodeFacts Keystore KeystoreFacts Envelope.
Local Open Scope string_scope.

Lemma create_returns `{OpenSSL} (S : ExtendedPrivateKey.t) (P : string) (o : Options.t)
    (w : world) :
  iv_fits o ->
  create S P o w =
  (Returned (new (sealed P (salt_of o w) (iv_of o w) (ExtendedPrivateKey.serialize S))
                 (uuid_format (next_octets 16 (before_id o w)))),
   advance 16 (note Call_uuid (before_id o w))).
Proof.
  intros Hiv. unfold create.
  rewrite (bind_returned _ _ _ _ _ (pick_salt o w)).
  rewrite (bind_returned _ _ _ _ _ (pick_iv o w)).
  cbv zeta. cbn [KdfParams.dklen KdfParams.n KdfParams.r KdfParams.p].
  pose proof (scryptSync_run P (salt_of o w) 32 8192 8 1 (after_iv o w)) as Ek.
  rewrite params_of_create in Ek. change (Z.to_nat 32) with 32%nat in Ek.
  rewrite (bind_returned _ _ _ _ _ Ek). clear Ek.
  rewrite (bind_returned _ _ _ _ _
             (createCipheriv_aes _ _ _ (key_slice_length _ _ _ _ _ 32 ltac:(lia))
                                 (iv_of_length o w Hiv))).
  unfold not_object.
  rewrite (bind_returned _ _ _ _ _ (update_final_aes _ _ _ _)).
  rewrite (bind_returned _ _ _ _ _ (Keccak_digest_hex_run _ _)).
  rewrite (bind_returned _ _ _ _ _ (uuid_run _)).
  reflexivity.
Qed.

Lemma create_throws `{OpenSSL} (S : ExtendedPrivateKey.t) (P : string) (o : Options.t)
    (w : world) :
  length (iv_of o w) <> 16 ->
  create S P o w =
  (Thrown (CryptoError "Invalid initialization vector"),
   note Call_createCipheriv (note Call_scryptSync (after_iv o w))).
Proof.
  intros Hiv. unfold create.
  rewrite (bind_returned _ _ _ _ _ (pick_salt o w)).
  rewrite (bind_returned _ _ _ _ _ (pick_iv o w)).
  cbv zeta. cbn [KdfParams.dklen KdfParams.n KdfParams.r KdfParams.p].
  pose proof (scryptSync_run P (salt_of o w) 32 8192 8 1 (after_iv o w)) as Ek.
  rewrite params_of_create in Ek. change (Z.to_nat 32) with 32%nat in Ek.
  rewrite (bind_returned _ _ _ _ _ Ek). clear Ek.
  now rewrite (bind_thrown _ _ _ _ _
                 (createCipheriv_aes_bad_iv _ _ _ (key_slice_length _ _ _ _ _ 32 ltac:(lia)) Hiv)).
Qed.

Lemma create_inv `{OpenSSL} (S : ExtendedPrivateKey.t) (P : string) (o : Options.t)
    (w w' : world) (ks : Keystore.t) :
  create S P o w = (Returned ks, w') ->
  iv_fits o /\
  ks = new (sealed P (salt_of o w) (iv_of o w) (ExtendedPrivateKey.serialize S))
           (uuid_format (next_octets 16 (before_id o w))) /\
  w' = advance 16 (note Call_uuid (before_id o w)).
Proof.
  intros E. destruct (iv_fits_dec o w) as [Hiv|Hiv].
  - rewrite (create_returns S P o w Hiv) in E. injection E as <- <-. auto.
  - rewrite (create_throws S P o w Hiv) in E. discriminate.
Qed.

Lemma after_iv_calls (o : Options.t) (w : world) :
  calls (after_iv o w) = (calls w ++ draw_calls o)%list.
Proof.
  unfold after_iv, after_salt, draw_calls.
  destruct (Options.salt o), (Options.iv o); cbn [calls note advance];
    rewrite <- ?app_assoc, ?app_nil_r; reflexivity.
Qed.

Lemma after_iv_consumed (o : Options.t) (w : world) :
  consumed (after_iv o w) + 16 = consumed w + drawn o.
Proof.
  unfold after_iv, after_salt, drawn.
  destruct (Options.salt o), (Options.iv o); cbn [consumed note advance]; lia.
Qed.

Lemma after_iv_entropy (o : Options.t) (w : world) : entropy (after_iv o w) = entropy w.
Proof.
  unfold after_iv, after_salt. destruct (Options.salt o), (Options.iv o); reflexivity.
Qed.

Lemma checkPassword_sealed (P' P : string) (salt iv : Buffer.t) (secret id : string)
    (w : world) :
  Scrypt.scrypt (Buffer.of_string P') salt 8192 8 1 32
  = Scrypt.scrypt (Buffer.of_string P) salt 8192 8 1 32 ->
  fst (checkPassword (new (sealed P salt iv secret) id) P' w) = Returned true.
Proof.
  intros Hdk.
  set (dk := Scrypt.scrypt (Buffer.of_string P) salt 8192 8 1 32) in *.
  set (ct := Aes.ctr (Buffer.slice dk 0 16) iv (Buffer.from_hex secret)).
  set (ks := new (sealed P salt iv secret) id).
  assert (Ekp : Crypto.kdfparams (crypto ks) =
                {| KdfParams.dklen := 32; KdfParams.n := 8192; KdfParams.r := 8;
                   KdfParams.p := 1; KdfParams.salt := Buffer.toString_hex salt |})
    by reflexivity.
  assert (Ect : Crypto.ciphertext (crypto ks) = Buffer.toString_hex ct) by reflexivity.
  assert (Emac : Crypto.mac (crypto ks) = keccak256_hex (Buffer.slice dk 16 32 ++ ct)%list)
    by reflexivity.
  pose proof (checkPassword_cases ks P' w) as C.
  rewrite derivedKey_run, Ekp in C. cbv zeta in C.
  cbn [KdfParams.dklen KdfParams.n KdfParams.r KdfParams.p KdfParams.salt fst] in C.
  rewrite params_of_create, BufferFacts.from_hex_toString_hex in C.
  change (Z.to_nat 32) with 32%nat in C. rewrite Hdk in C.
  unfold recomputed_mac in C.
  rewrite Ect, Emac, BufferFacts.from_hex_toString_hex, String.eqb_refl in C.
  now rewrite C.
Qed.

Lemma iota_length (rc : Z) (A : list Z) : length (Keccak.iota rc A) = length A.
Proof. now destruct A. Qed.

Lemma keccak_f_length (A : list Z) : length (Keccak.keccak_f A) = 25.
Proof.
  unfold Keccak.keccak_f.
  assert (N : Keccak.round_constants <> []) by discriminate.
  rewrite (app_removelast_last 0%Z N), fold_left_app. cbn [fold_left].
  rewrite iota_length. unfold Keccak.chi. now rewrite length_map.
Qed.

Lemma absorbed_length (blocks : list (list Z)) :
  forall A, length A = 25 -> length (fold_left Keccak.absorb blocks A) = 25.
Proof.
  induction blocks as [|b blocks IH]; intros A HA; [exact HA|].
  cbn [fold_left]. apply IH. apply keccak_f_length.
Qed.

Lemma keccak256_length (msg : Buffer.t) : length (Keccak.keccak256 msg) = 32.
Proof.
  unfold Keccak.keccak256.
  rewrite length_map, length_firstn,
    (KdfFacts.flat_map_length_const _ 8 _ (KdfFacts.to_le_length 8)),
    absorbed_length by apply repeat_length.
  reflexivity.
Qed.

Lemma keccak256_hex_shape (data : Buffer.t) :
  String.length (keccak256_hex data) = 64 /\ Buffer.is_hex (keccak256_hex data) = true.
Proof.
  unfold keccak256_hex.
  now rewrite BufferFacts.toString_hex_length, keccak256_length, BufferFacts.is_hex_toString_hex.
Qed.


Lemma decrypt_returns_inv `{OpenSSL} (ks : Keystore.t) (P : string) (w : world) (s : string) :
  fst (decrypt ks P w) = Returned s ->
  exists dk,
    fst (derivedKey ks P w) = Returned dk /\
    recomputed_mac ks dk = Crypto.mac (crypto ks) /\
    decrypt ks P w = decipher_steps ks dk (note Call_Keccak_digest (note Call_scryptSync w)).
Proof.
  intros E. pose proof (decrypt_cases ks P w) as C.
  destruct (fst (derivedKey ks P w)) as [dk|e].
  - destruct (String.eqb _ _) eqn:Em.
    + exists dk. apply String.eqb_eq in Em. auto.
    + rewrite C in E. discriminate.
  - rewrite C in E. discriminate.
Qed.

Lemma decipher_steps_returns `{OpenSSL} (ks : Keystore.t) (dk : Buffer.t) (w w' : world)
    (s : string) :
  decipher_steps ks dk w = (Returned s, w') ->
  w' = note Call_final (note Call_update (note Call_createDecipheriv w)) /\
  exists plain,
    s = Buffer.toString_hex plain /\
    (Crypto.cipher (crypto ks) = CIPHER ->
     plain = Aes.ctr (Buffer.slice dk 0 16)
               (Buffer.from_hex (CipherParams.iv (Crypto.cipherparams (crypto ks))))
               (Buffer.from_hex (Crypto.ciphertext (crypto ks)))).
Proof.
  unfold decipher_steps, createDecipheriv.
  unfold bind at 1. unfold bind at 1. unfold log at 1.
  destruct (cipheriv _ _ _ _ _) as [[d|e1] w1] eqn:E1; [|discriminate].
  assert (W1 : w1 = note Call_createDecipheriv w /\
               (Crypto.cipher (crypto ks) = CIPHER ->
                d = AesCtr (Buffer.slice dk 0 16)
                      (Buffer.from_hex (CipherParams.iv (Crypto.cipherparams (crypto ks)))))).
  { revert E1. unfold cipheriv.
    destruct (String.eqb (Crypto.cipher (crypto ks)) "aes-128-ctr") eqn:Ea.
    - destruct (negb (length _ =? 16)%nat); [discriminate|].
      destruct (negb (length _ =? 16)%nat); [discriminate|].
      intros [= <- <-]. auto.
    - destruct (other_cipher _ _ _); [|discriminate].
      intros [= <- <-]. split; [reflexivity|].
      intros Hc. rewrite Hc in Ea. discriminate. }
  destruct W1 as [-> Hd].
  unfold bind, update_final, log, ret, throw.
  destruct d as [key iv|f].
  - intros [= <- <-]. split; [reflexivity|].
    eexists. split; [reflexivity|]. intros Hc. specialize (Hd Hc).
    injection Hd as -> ->. now rewrite app_nil_r.
  - destruct (f _) as [out|]; [|discriminate].
    intros [= <- <-]. split; [reflexivity|].
    exists out. split; [reflexivity|]. intros Hc. specialize (Hd Hc). discriminate.
Qed.

Lemma decrypt_returns_checks `{OpenSSL} (ks : Keystore.t) (P : string) (w : world) (s : string) :
  fst (decrypt ks P w) = Returned s -> fst (checkPassword ks P w) = Returned true.
Proof.
  intros E. destruct (decrypt_returns_inv ks P w s E) as (dk & Edk & Em & _).
  pose proof (checkPassword_cases ks P w) as C. rewrite Edk in C.
  rewrite C, Em, String.eqb_refl. reflexivity.
Qed.

Lemma demo_checks : fst (checkPassword demo "correct horse" quiet) = Returned true.
Proof. exact (decrypt_returns_checks (H := only_aes) demo "correct horse" quiet zeros demo_opens). Qed.

End EnvelopeFacts.

(** ** Further laws of the methods *)

Module KeystoreLaws.
Import Node NodeFacts Keystore KeystoreFacts Envelope EnvelopeFacts.
Local Open Scope string_scope.

Lemma string_length_app (a b : string) :
  String.length (a ++ b) = String.length a + String.length b.
Proof. induction a as [|c a IH]; cbn [String.append String.length]; [reflexivity | now rewrite IH]. Qed.

Lemma uuid_format_length (rnds : Buffer.t) :
  length rnds = 16 -> String.length (uuid_format rnds) = 36.
Proof.
  intros H. unfold uuid_format.
  rewrite !string_length_app, !BufferFacts.toString_hex_length. cbn [length String.length].
  rewrite !BufferFacts.slice_length by lia. reflexivity.
Qed.

Lemma next_octets_length (n : nat) (w : world) : length (next_octets n w) = n.
Proof. unfold next_octets. now rewrite length_map, length_seq. Qed.

Lemma cipheriv_world `{OpenSSL} (enc : bool) (algorithm : string) (key iv : Buffer.t)
    (w : world) :
  snd (cipheriv enc algorithm key iv w) = w.
Proof.
  unfold cipheriv, ret, throw.
  destruct (String.eqb algorithm "aes-128-ctr").
  - destruct (negb (length key =? 16)%nat); [reflexivity|].
    destruct (negb (length iv =? 16)%nat); reflexivity.
  - destruct (other_cipher algorithm key iv); reflexivity.
Qed.

Lemma update_final_world (c : Cipher) (data : Buffer.t) (w : world) :
  same_source w (snd (update_final c data w)).
Proof.
  unfold update_final, bind, log, ret, throw, same_source.
  destruct c as [key iv|f]; [split; reflexivity|].
  destruct (f data); split; reflexivity.
Qed.

Lemma decipher_steps_world `{OpenSSL} (ks : Keystore.t) (dk : Buffer.t) (w : world) :
  same_source w (snd (decipher_steps ks dk w)).
Proof.
  unfold decipher_steps, createDecipheriv, bind, log.
  match goal with
  | |- context [cipheriv ?e ?a ?k ?i ?w0] =>
      pose proof (cipheriv_world e a k i w0) as Wc;
      destruct (cipheriv e a k i w0) as [[d|e1] w1]
  end; cbn [snd] in Wc; subst w1.
  - match goal with
    | |- context [update_final ?c ?data ?w0] =>
        pose proof (update_final_world c data w0) as Wu;
        destruct (update_final c data w0) as [[pl|e2] w2]
    end; exact Wu.
  - split; reflexivity.
Qed.

(** X1 (checkPassword after create).  Whatever the secret, the password and
    the options, provided an iv given in the options has 16 octets: the
    keystore [create] returns passes [checkPassword] with the password it was
    created with. *)
Theorem created_keystore_accepts_its_password `{OpenSSL} (S : ExtendedPrivateKey.t) (P : string)
    (options : Options.t) (w : world) :
  iv_fits options ->
  exists ks w',
    create S P options w = (Returned ks, w') /\
    forall w2, fst (checkPassword ks P w2) = Returned true.
Proof.
  intros Hiv. eexists. eexists. split; [apply create_returns, Hiv|].
  intros w2. now apply checkPassword_sealed.
Qed.

Lemma created_keystore_accepts_its_password_witness :
  exists ks w',
    @create only_aes secret0 "correct horse" fixed quiet = (Returned ks, w') /\
    forall w2, fst (checkPassword ks "correct horse" w2) = Returned true.
Proof.
  apply (@created_keystore_accepts_its_password only_aes secret0 "correct horse" fixed quiet).
  reflexivity.
Defined.

(** X2 (what decrypt gives back).  For every [serialize()] string, clean hex
    or not, decrypting the created keystore with the same password returns
    the hex writing of the octets [create] decoded from it: upper-case digits
    come back in lower case, and what follows the first pair that is no hex
    pair is lost without an error. *)
Theorem decrypt_returns_what_create_decoded `{OpenSSL} (S : ExtendedPrivateKey.t) (P : string)
    (options : Options.t) (w : world) :
  iv_fits options ->
  exists ks w',
    create S P options w = (Returned ks, w') /\
    forall w2,
      fst (decrypt ks P w2)
      = Returned (Buffer.toString_hex (Buffer.from_hex (ExtendedPrivateKey.serialize S))).
Proof.
  intros Hiv. eexists. eexists. split; [apply create_returns, Hiv|].
  intros w2. apply decrypt_sealed; [now apply iv_of_length | reflexivity].
Qed.

Lemma decrypt_returns_what_create_decoded_witness :
  exists ks w',
    @create only_aes secret_ragged "correct horse" fixed quiet = (Returned ks, w') /\
    forall w2, fst (@decrypt only_aes ks "correct horse" w2) = Returned "0abc".
Proof.
  apply (@decrypt_returns_what_create_decoded only_aes secret_ragged "correct horse" fixed quiet).
  reflexivity.
Defined.

(** X3 (a password followed by U+0000).  For every password of fewer than 64
    octets, the same password followed by the character U+0000 passes
    [checkPassword] on the created keystore and decrypts it to the same
    result. *)
Theorem nul_suffix_opens_every_keystore `{OpenSSL} (S : ExtendedPrivateKey.t) (P : string)
    (options : Options.t) (w : world) :
  String.length P < 64 ->
  iv_fits options ->
  exists ks w',
    create S P options w = (Returned ks, w') /\
    forall w2,
      fst (checkPassword ks (P ++ nul) w2) = Returned true /\
      fst (decrypt ks (P ++ nul) w2) = fst (decrypt ks P w2).
Proof.
  intros HP Hiv. eexists. eexists. split; [apply create_returns, Hiv|].
  intros w2. split.
  - apply checkPassword_sealed. now apply KdfFacts.scrypt_trailing_nul.
  - rewrite !decrypt_sealed; try reflexivity; try now apply iv_of_length.
    now apply KdfFacts.scrypt_trailing_nul.
Qed.

Lemma nul_suffix_opens_every_keystore_witness :
  exists ks w',
    @create only_aes secret0 "" fixed quiet = (Returned ks, w') /\
    forall w2,
      fst (checkPassword ks ("" ++ nul) w2) = Returned true /\
      fst (@decrypt only_aes ks ("" ++ nul) w2) = fst (@decrypt only_aes ks "" w2).
Proof.
  apply (@nul_suffix_opens_every_keystore only_aes secret0 "" fixed quiet).
  - cbn [String.length]. lia.
  - reflexivity.
Defined.

(** X4 (shape of the fields).  In a keystore returned by [create] the
    ciphertext is lower-case hex with two digits per octet of the decoded
    secret (as long as [serialize()] itself when that is clean hex), the mac
    is 64 lower-case hex digits, the iv 32, the salt two per octet of the
    salt, and the id has 36 characters. *)
Theorem create_field_shapes `{OpenSSL} (S : ExtendedPrivateKey.t) (P : string)
    (options : Options.t) (w w' : world) (ks : Keystore.t) :
  create S P options w = (Returned ks, w') ->
  (String.length (Crypto.ciphertext (crypto ks))
   = 2 * length (Buffer.from_hex (ExtendedPrivateKey.serialize S)) /\
   Buffer.is_hex (Crypto.ciphertext (crypto ks)) = true /\
   (Buffer.is_hex (ExtendedPrivateKey.serialize S) = true ->
    String.length (Crypto.ciphertext (crypto ks))
    = String.length (ExtendedPrivateKey.serialize S))) /\
  (String.length (Crypto.mac (crypto ks)) = 64 /\ Buffer.is_hex (Crypto.mac (crypto ks)) = true) /\
  String.length (CipherParams.iv (Crypto.cipherparams (crypto ks))) = 32 /\
  String.length (KdfParams.salt (Crypto.kdfparams (crypto ks)))
  = 2 * length (salt_of options w) /\
  String.length (id ks) = 36.
Proof.
  intros E. apply create_inv in E. destruct E as (Hiv & -> & _).
  set (dk := Scrypt.scrypt (Buffer.of_string P) (salt_of options w) 8192 8 1 32).
  set (ct := Aes.ctr (Buffer.slice dk 0 16) (iv_of options w)
               (Buffer.from_hex (ExtendedPrivateKey.serialize S))).
  change (Crypto.ciphertext (crypto (new (sealed _ _ _ _) _))) with (Buffer.toString_hex ct).
  change (Crypto.mac (crypto (new (sealed _ _ _ _) _)))
    with (keccak256_hex (Buffer.slice dk 16 32 ++ ct)%list).
  change (CipherParams.iv (Crypto.cipherparams (crypto (new (sealed _ _ _ _) _))))
    with (Buffer.toString_hex (iv_of options w)).
  change (KdfParams.salt (Crypto.kdfparams (crypto (new (sealed _ _ _ _) _))))
    with (Buffer.toString_hex (salt_of options w)).
  change (id (new _ ?i)) with i.
  assert (Lct : String.length (Buffer.toString_hex ct)
                = 2 * length (Buffer.from_hex (ExtendedPrivateKey.serialize S))).
  { rewrite BufferFacts.toString_hex_length. unfold ct. now rewrite ctr_length. }
  split; [split; [exact Lct | split]|split; [|split; [|split]]].
  - apply BufferFacts.is_hex_toString_hex.
  - intros Hhex. rewrite Lct.
    rewrite <- (BufferFacts.toString_hex_from_hex _ Hhex) at 2.
    now rewrite BufferFacts.toString_hex_length.
  - apply keccak256_hex_shape.
  - now rewrite BufferFacts.toString_hex_length, (iv_of_length options w Hiv).
  - apply BufferFacts.toString_hex_length.
  - apply uuid_format_length, next_octets_length.
Qed.

Lemma create_field_shapes_witness :
  exists ks w',
    @create only_aes secret0 "correct horse" fixed quiet = (Returned ks, w') /\
    String.length (Crypto.ciphertext (crypto ks)) = 128 /\
    String.length (Crypto.mac (crypto ks)) = 64 /\
    String.length (id ks) = 36.
Proof.
  eexists. eexists. split; [apply (@create_returns only_aes); reflexivity|].
  destruct (@create_field_shapes only_aes secret0 "correct horse" fixed quiet _ _
              (@create_returns only_aes secret0 "correct horse" fixed quiet eq_refl))
    as ((_ & _ & L) & (M & _) & _ & _ & I).
  split; [exact (L eq_refl) | split; [exact M | exact I]].
Defined.

(** X5 (what create asks of the libraries).  When [create] returns it has
    called, in this order and nothing else: [randomBytes(32)] unless a salt
    was given, [randomBytes(16)] unless an iv was given, [scryptSync],
    [createCipheriv], [update], [final], the Keccak digest and [uuid]; it has
    read 16 octets of the random source for the id and 32 and 16 more for a
    salt and an iv it had to draw. *)
Theorem create_calls_in_order `{OpenSSL} (S : ExtendedPrivateKey.t) (P : string)
    (options : Options.t) (w w' : world) (ks : Keystore.t) :
  create S P options w = (Returned ks, w') ->
  calls w' = (calls w ++ create_calls options)%list /\
  consumed w' = consumed w + drawn options /\
  entropy w' = entropy w.
Proof.
  intros E. apply create_inv in E. destruct E as (_ & _ & ->).
  unfold before_id, create_calls. cbn [calls consumed entropy note advance].
  rewrite after_iv_calls, after_iv_entropy.
  pose proof (after_iv_consumed options w) as Hc.
  split; [|split; [lia | reflexivity]].
  now rewrite <- !app_assoc.
Qed.

Lemma create_calls_in_order_witness :
  exists ks w',
    @create only_aes secret0 "correct horse" none quiet = (Returned ks, w') /\
    calls w' = [Call_randomBytes 32; Call_randomBytes 16; Call_scryptSync; Call_createCipheriv;
                Call_update; Call_final; Call_Keccak_digest; Call_uuid] /\
    consumed w' = 64.
Proof.
  eexists. eexists. split; [apply (@create_returns only_aes); exact I|].
  destruct (@create_calls_in_order only_aes secret0 "correct horse" none quiet _ _
              (@create_returns only_aes secret0 "correct horse" none quiet I))
    as (C & N & _).
  split; [exact C | exact N].
Defined.

(** X6 (salt, iv and id are drawn apart).  Without options [create] always
    returns, and with [c] octets of the random source read before the call,
    the salt is octets [c .. c+31] of the source, the iv octets
    [c+32 .. c+47] and the id is formatted from octets [c+48 .. c+63]: no
    octet is used twice. *)
Theorem create_draws_salt_iv_id_apart `{OpenSSL} (S : ExtendedPrivateKey.t) (P : string)
    (w : world) :
  exists ks w',
    create S P none w = (Returned ks, w') /\
    KdfParams.salt (Crypto.kdfparams (crypto ks))
    = Buffer.toString_hex (map (entropy w) (seq (consumed w) 32)) /\
    CipherParams.iv (Crypto.cipherparams (crypto ks))
    = Buffer.toString_hex (map (entropy w) (seq (consumed w + 32) 16)) /\
    id ks = uuid_format (map (entropy w) (seq (consumed w + 48) 16)) /\
    consumed w' = consumed w + 64.
Proof.
  eexists. eexists. split; [apply create_returns; exact I|].
  split; [reflexivity|]. split; [reflexivity|]. split.
  - change (id (new _ ?i)) with i. unfold next_octets, before_id, none.
    cbn [after_iv after_salt Options.salt Options.iv consumed entropy note advance].
    now rewrite <- Nat.add_assoc.
  - unfold before_id, none.
    cbn [after_iv after_salt Options.salt Options.iv consumed note advance]. lia.
Qed.

(** X7 (the id tells nothing of the secret).  The id, the salt and the iv of
    the keystore [create] returns, and the state of the random source and the
    list of library calls it leaves, are the same for any two secrets and any
    two passwords. *)
Theorem create_id_ignores_secret_and_password `{OpenSSL} (S1 S2 : ExtendedPrivateKey.t)
    (P1 P2 : string) (options : Options.t) (w : world) :
  cmap id (fst (create S1 P1 options w)) = cmap id (fst (create S2 P2 options w)) /\
  cmap (fun ks => KdfParams.salt (Crypto.kdfparams (crypto ks))) (fst (create S1 P1 options w))
  = cmap (fun ks => KdfParams.salt (Crypto.kdfparams (crypto ks)))
      (fst (create S2 P2 options w)) /\
  cmap (fun ks => CipherParams.iv (Crypto.cipherparams (crypto ks)))
    (fst (create S1 P1 options w))
  = cmap (fun ks => CipherParams.iv (Crypto.cipherparams (crypto ks)))
      (fst (create S2 P2 options w)) /\
  snd (create S1 P1 options w) = snd (create S2 P2 options w).
Proof.
  destruct (iv_fits_dec options w) as [Hiv|Hiv].
  - rewrite !(create_returns _ _ options w Hiv). cbn [fst snd cmap]. auto.
  - rewrite !(create_throws _ _ options w Hiv). cbn [fst snd cmap]. auto.
Qed.

(** X8 (the only failure of create).  [create] returns exactly when an iv
    given in the options has 16 octets.  Otherwise it raises the provider's
    "Invalid initialization vector", and only after the key derivation has
    run: the calls made are the draws, [scryptSync] and [createCipheriv]. *)
Theorem create_fails_only_on_iv `{OpenSSL} (S : ExtendedPrivateKey.t) (P : string)
    (options : Options.t) (w : world) :
  ((exists ks, fst (create S P options w) = Returned ks) <-> iv_fits options) /\
  (forall e, fst (create S P options w) = Thrown e ->
     e = CryptoError "Invalid initialization vector" /\
     calls (snd (create S P options w))
     = (calls w ++ draw_calls options ++ [Call_scryptSync; Call_createCipheriv])%list).
Proof.
  destruct (iv_fits_dec options w) as [Hiv|Hiv].
  - rewrite (create_returns S P options w Hiv). cbn [fst snd]. split.
    + split; [auto | eauto].
    + discriminate.
  - rewrite (create_throws S P options w Hiv). cbn [fst snd]. split.
    + split; [intros [ks E]; discriminate|].
      intros Hfit. exfalso. apply Hiv. now apply iv_of_length.
    + intros e [= <-]. split; [reflexivity|].
      cbn [calls note]. rewrite after_iv_calls. now rewrite <- !app_assoc.
Qed.

(** X9 (a changed mac is noticed).  If a keystore passes [checkPassword]
    with a password, the same keystore with any other string as its mac fails
    it with that password, and [decrypt] raises IncorrectPassword. *)
Theorem changed_mac_is_rejected `{OpenSSL} (ks : Keystore.t) (P m : string) (w : world) :
  fst (checkPassword ks P w) = Returned true ->
  m <> Crypto.mac (crypto ks) ->
  fst (checkPassword (set_mac m ks) P w) = Returned false /\
  fst (decrypt (set_mac m ks) P w) = Thrown IncorrectPassword.
Proof.
  intros Hok Hm.
  pose proof (checkPassword_cases ks P w) as C0.
  pose proof (checkPassword_cases (set_mac m ks) P w) as C1.
  pose proof (decrypt_cases (set_mac m ks) P w) as D1.
  change (derivedKey (set_mac m ks) P w) with (derivedKey ks P w) in C1, D1.
  destruct (fst (derivedKey ks P w)) as [dk|e].
  - change (recomputed_mac (set_mac m ks) dk) with (recomputed_mac ks dk) in C1, D1.
    change (Crypto.mac (crypto (set_mac m ks))) with m in C1, D1.
    rewrite C0 in Hok. cbn [fst] in Hok. injection Hok as Hok.
    apply String.eqb_eq in Hok. rewrite Hok in C1, D1.
    assert (F : String.eqb (Crypto.mac (crypto ks)) m = false).
    { apply String.eqb_neq. congruence. }
    rewrite F in D1. rewrite C1, D1, F. auto.
  - rewrite C0 in Hok. discriminate.
Qed.

Lemma changed_mac_is_rejected_witness :
  fst (checkPassword (set_mac "00" demo) "correct horse" quiet) = Returned false /\
  fst (@decrypt only_aes (set_mac "00" demo) "correct horse" quiet) = Thrown IncorrectPassword.
Proof.
  apply (@changed_mac_is_rejected only_aes demo "correct horse" "00" quiet).
  - exact demo_checks.
  - discriminate.
Defined.

(** X10 (what is read of a keystore).  [decrypt], [checkPassword] and
    [derivedKey] depend on a keystore only through its cipher name, its cost
    parameters, its mac and the octets its iv, ciphertext and salt decode to:
    the [kdf] name, the id, the version, the case of the hex digits and
    whatever follows the hex digits change nothing, nor the calls made. *)
Theorem respelled_keystore_reads_alike `{OpenSSL} (a b : Keystore.t) (P : string) (w : world) :
  same_reading a b ->
  decrypt a P w = decrypt b P w /\
  checkPassword a P w = checkPassword b P w /\
  derivedKey a P w = derivedKey b P w.
Proof.
  intros (Hc & Hiv & Hct & Hs & Hdk & Hn & Hr & Hp & Hm).
  unfold decrypt, checkPassword, derivedKey.
  rewrite Hc, Hiv, Hct, Hs, Hdk, Hn, Hr, Hp, Hm. auto.
Qed.

Lemma respelled_keystore_reads_alike_witness :
  @decrypt only_aes demo "correct horse" quiet
  = @decrypt only_aes demo_respelled "correct horse" quiet /\
  checkPassword demo "correct horse" quiet = checkPassword demo_respelled "correct horse" quiet /\
  derivedKey demo "correct horse" quiet = derivedKey demo_respelled "correct horse" quiet.
Proof.
  apply (@respelled_keystore_reads_alike only_aes demo demo_respelled "correct horse" quiet).
  unfold same_reading. vm_compute. repeat split.
Defined.



(** X12 (what decrypt returns).  Whenever [decrypt] returns, the string is
    lower-case hex with an even number of digits; with aes-128-ctr it has two
    digits per octet the stored ciphertext decodes to, whatever the
    password. *)
Theorem decrypt_returns_lower_hex `{OpenSSL} (ks : Keystore.t) (P : string) (w : world)
    (s : string) :
  fst (decrypt ks P w) = Returned s ->
  Buffer.is_hex s = true /\
  (Crypto.cipher (crypto ks) = CIPHER ->
   String.length s = 2 * length (Buffer.from_hex (Crypto.ciphertext (crypto ks)))).
Proof.
  intros E. destruct (decrypt_returns_inv ks P w s E) as (dk & _ & _ & D).
  rewrite D in E.
  destruct (decipher_steps ks dk _) as [c w1] eqn:Es. cbn [fst] in E. subst c.
  apply decipher_steps_returns in Es. destruct Es as (_ & plain & -> & Hp).
  split; [apply BufferFacts.is_hex_toString_hex|].
  intros Hc. rewrite (Hp Hc), BufferFacts.toString_hex_length, ctr_length. reflexivity.
Qed.

Lemma decrypt_returns_lower_hex_witness :
  Buffer.is_hex zeros = true /\
  String.length zeros = 2 * length (Buffer.from_hex (Crypto.ciphertext (crypto demo))).
Proof.
  destruct (@decrypt_returns_lower_hex only_aes demo "correct horse" quiet zeros demo_opens)
    as [A B].
  split; [exact A | exact (B eq_refl)].
Defined.

(** X13 (the readers leave the random source alone).  [decrypt],
    [checkPassword], [derivedKey] and [mac] read no octet of the random
    source, whatever their outcome, and [fromJson] makes no library call at
    all. *)
Theorem readers_leave_the_random_source `{OpenSSL} (ks : Keystore.t) (P json : string)
    (dk ct : Buffer.t) (w : world) :
  same_source w (snd (decrypt ks P w)) /\
  same_source w (snd (checkPassword ks P w)) /\
  same_source w (snd (derivedKey ks P w)) /\
  same_source w (snd (mac dk ct w)) /\
  snd (fromJson json w) = w.
Proof.
  split; [|split; [|split; [|split]]].
  - pose proof (decrypt_cases ks P w) as D.
    destruct (fst (derivedKey ks P w)) as [k|e].
    + destruct (String.eqb _ _).
      * rewrite D.
        exact (decipher_steps_world ks k (note Call_Keccak_digest (note Call_scryptSync w))).
      * rewrite D. split; reflexivity.
    + rewrite D. split; reflexivity.
  - pose proof (checkPassword_cases ks P w) as C.
    destruct (fst (derivedKey ks P w)) as [k|e]; rewrite C; split; reflexivity.
  - rewrite derivedKey_world. split; reflexivity.
  - split; reflexivity.
  - now rewrite fromJson_run.
Qed.



(** X15 (what decrypt can raise).  [decrypt] raises IncorrectPassword or an
    error of the crypto provider and nothing else: never UnsupportedCipher,
    not even for a keystore that names another cipher, and never
    InvalidKeystore. *)
Theorem decrypt_raises_only `{OpenSSL} (ks : Keystore.t) (P : string) (w : world) (e : exn) :
  fst (decrypt ks P w) = Thrown e ->
  e = IncorrectPassword \/ exists m, e = CryptoError m.
Proof.
  intros E. pose proof (decrypt_cases ks P w) as D.
  destruct (fst (derivedKey ks P w)) as [dk|e0] eqn:Edk.
  - destruct (String.eqb _ _).
    + rewrite D in E. right. eapply decipher_steps_throws, E.
    + rewrite D in E. injection E as <-. now left.
  - rewrite D in E. injection E as <-. right.
    rewrite (derivedKey_throws ks P w e0 Edk). eauto.
Qed.

Lemma decrypt_raises_only_witness :
  exists e,
    fst (@decrypt only_aes demo "wrong horse" quiet) = Thrown e /\
    (e = IncorrectPassword \/ exists m, e = CryptoError m).
Proof.
  exists IncorrectPassword.
  assert (E : fst (@decrypt only_aes demo "wrong horse" quiet) = Thrown IncorrectPassword)
    by now rewrite demo_rejects.
  split; [exact E|].
  exact (@decrypt_raises_only only_aes demo "wrong horse" quiet IncorrectPassword E).
Defined.

(** X16 (the key behind a created keystore).  On the keystore [create]
    returns, [derivedKey] with the same password returns 32 octets after one
    call of [scryptSync]; [mac] of that key and the decoded ciphertext is the
    stored mac, and its first 16 octets take the decoded ciphertext back to
    the octets of the secret under the stored iv. *)
Theorem derivedKey_of_created_keystore `{OpenSSL} (S : ExtendedPrivateKey.t) (P : string)
    (options : Options.t) (w : world) :
  iv_fits options ->
  exists ks w' dk,
    create S P options w = (Returned ks, w') /\
    (forall w2, derivedKey ks P w2 = (Returned dk, note Call_scryptSync w2)) /\
    length dk = 32 /\
    (forall w2, fst (mac dk (Buffer.from_hex (Crypto.ciphertext (crypto ks))) w2)
                = Returned (Crypto.mac (crypto ks))) /\
    Aes.ctr (Buffer.slice dk 0 16)
      (Buffer.from_hex (CipherParams.iv (Crypto.cipherparams (crypto ks))))
      (Buffer.from_hex (Crypto.ciphertext (crypto ks)))
    = Buffer.from_hex (ExtendedPrivateKey.serialize S).
Proof.
  intros Hiv.
  set (dk := Scrypt.scrypt (Buffer.of_string P) (salt_of options w) 8192 8 1 32).
  set (ct := Aes.ctr (Buffer.slice dk 0 16) (iv_of options w)
               (Buffer.from_hex (ExtendedPrivateKey.serialize S))).
  eexists. eexists. exists dk. split; [apply create_returns, Hiv|].
  match goal with |- context [derivedKey ?k _ _] => set (ks := k) end.
  assert (Ekp : Crypto.kdfparams (crypto ks) =
                {| KdfParams.dklen := 32; KdfParams.n := 8192; KdfParams.r := 8;
                   KdfParams.p := 1; KdfParams.salt := Buffer.toString_hex (salt_of options w) |})
    by reflexivity.
  assert (Ect : Crypto.ciphertext (crypto ks) = Buffer.toString_hex ct) by reflexivity.
  assert (Emac : Crypto.mac (crypto ks) = keccak256_hex (Buffer.slice dk 16 32 ++ ct)%list)
    by reflexivity.
  assert (Eiv : CipherParams.iv (Crypto.cipherparams (crypto ks))
                = Buffer.toString_hex (iv_of options w)) by reflexivity.
  split; [|split; [|split]].
  - intros w2. rewrite derivedKey_run, Ekp. cbv zeta.
    cbn [KdfParams.dklen KdfParams.n KdfParams.r KdfParams.p KdfParams.salt].
    rewrite params_of_create, BufferFacts.from_hex_toString_hex. reflexivity.
  - apply KdfFacts.scrypt_length.
  - intros w2. rewrite Ect, Emac, BufferFacts.from_hex_toString_hex. reflexivity.
  - rewrite Ect, Eiv, !BufferFacts.from_hex_toString_hex. apply ctr_involutive.
Qed.

Lemma derivedKey_of_created_keystore_witness :
  exists ks w' dk,
    @create only_aes secret0 "correct horse" fixed quiet = (Returned ks, w') /\
    (forall w2, derivedKey ks "correct horse" w2 = (Returned dk, note Call_scryptSync w2)) /\
    length dk = 32 /\
    (forall w2, fst (mac dk (Buffer.from_hex (Crypto.ciphertext (crypto ks))) w2)
                = Returned (Crypto.mac (crypto ks))) /\
    Aes.ctr (Buffer.slice dk 0 16)
      (Buffer.from_hex (CipherParams.iv (Crypto.cipherparams (crypto ks))))
      (Buffer.from_hex (Crypto.ciphertext (crypto ks)))
    = Buffer.from_hex (ExtendedPrivateKey.serialize secret0).
Proof.
  apply (@derivedKey_of_created_keystore only_aes secret0 "correct horse" fixed quiet).
  reflexivity.
Defined.

(** X17 (the mac is compared as a string).  The recomputed mac is always 64
    lower-case hex digits and is compared with the stored one character by
    character: a keystore whose mac has another length, or a digit in upper
    case, passes [checkPassword] with no password and [decrypt] never returns
    on it, although the ciphertext, the salt and the iv are read in either
    case. *)
Theorem malformed_mac_never_passes `{OpenSSL} (ks : Keystore.t) (P : string) (w : world) :
  String.length (Crypto.mac (crypto ks)) <> 64 \/ Buffer.is_hex (Crypto.mac (crypto ks)) = false ->
  fst (checkPassword ks P w) <> Returned true /\
  forall s, fst (decrypt ks P w) <> Returned s.
Proof.
  intros Hbad.
  assert (N : fst (checkPassword ks P w) <> Returned true).
  { intros E. pose proof (checkPassword_cases ks P w) as C.
    destruct (fst (derivedKey ks P w)) as [dk|e].
    - rewrite C in E. cbn [fst] in E. injection E as E. apply String.eqb_eq in E.
      destruct (keccak256_hex_shape
                  (Buffer.slice dk 16 32 ++ Buffer.from_hex (Crypto.ciphertext (crypto ks)))%list)
        as [L X].
      unfold recomputed_mac in E. rewrite E in L, X.
      destruct Hbad as [Hl|Hx]; [now apply Hl | rewrite Hx in X; discriminate].
    - rewrite C in E. discriminate. }
  split; [exact N|].
  intros s E. apply N. eapply decrypt_returns_checks, E.
Qed.

Lemma malformed_mac_never_passes_witness :
  fst (checkPassword demo_upper_mac "correct horse" quiet) <> Returned true /\
  forall s, fst (@decrypt only_aes demo_upper_mac "correct horse" quiet) <> Returned s.
Proof.
  apply (@malformed_mac_never_passes only_aes demo_upper_mac "correct horse" quiet).
  right. reflexivity.
Defined.

(** X18 (the two ways of saying no).  For every keystore and password,
    [checkPassword] returns false exactly when [decrypt] raises
    IncorrectPassword. *)
Theorem checkPassword_false_iff_decrypt_IncorrectPassword `{OpenSSL} (ks : Keystore.t)
    (P : string) (w : world) :
  fst (checkPassword ks P w) = Returned false <->
  fst (decrypt ks P w) = Thrown IncorrectPassword.
Proof.
  pose proof (checkPassword_cases ks P w) as C.
  pose proof (decrypt_cases ks P w) as D.
  destruct (fst (derivedKey ks P w)) as [dk|e] eqn:Edk.
  - destruct (String.eqb _ _).
    + rewrite C, D. split; [discriminate|].
      intros E. apply decipher_steps_throws in E. destruct E as [m E]. discriminate.
    + rewrite C, D. split; reflexivity.
  - rewrite C, D. cbn [fst]. split; [discriminate|].
    intros [= ->]. apply derivedKey_throws in Edk. discriminate.
Qed.



(** X20 (extendedPrivateKey fails as decrypt does).  [extendedPrivateKey]
    makes the library calls of [decrypt] and raises what [decrypt] raises; in
    particular it raises IncorrectPassword exactly when [checkPassword]
    returns false for the same password. *)
Theorem extendedPrivateKey_fails_as_decrypt `{OpenSSL} (ks : Keystore.t) (P : string)
    (w : world) :
  snd (extendedPrivateKey ks P w) = snd (decrypt ks P w) /\
  (forall e, fst (extendedPrivateKey ks P w) = Thrown e <-> fst (decrypt ks P w) = Thrown e) /\
  (fst (extendedPrivateKey ks P w) = Thrown IncorrectPassword <->
   fst (checkPassword ks P w) = Returned false).
Proof.
  assert (E : snd (extendedPrivateKey ks P w) = snd (decrypt ks P w) /\
              forall e, fst (extendedPrivateKey ks P w) = Thrown e <->
                        fst (decrypt ks P w) = Thrown e).
  { unfold extendedPrivateKey, bind, ret.
    destruct (decrypt ks P w) as [[s|e0] w1]; cbn [fst snd].
    - split; [reflexivity|]. intros e. split; discriminate.
    - split; [reflexivity|]. intros e. split; intros [= <-]; reflexivity. }
  destruct E as [Ew Ee]. split; [exact Ew|]. split; [exact Ee|].
  rewrite Ee. pose proof (checkPassword_cases ks P w) as C.
  pose proof (decrypt_cases ks P w) as D.
  destruct (fst (derivedKey ks P w)) as [dk|e] eqn:Edk.
  - destruct (String.eqb _ _).
    + rewrite C, D. split; [|discriminate].
      intros E. apply decipher_steps_throws in E. destruct E as [m E]. discriminate.
    + rewrite C, D. split; reflexivity.
  - rewrite C, D. cbn [fst]. split; [|discriminate].
    intros [= ->]. apply derivedKey_throws in Edk. discriminate.
Qed.

End KeystoreLaws.
